(** * psd_analyze: the binary decoding pipeline of [main.cpp]

    A shallow embedding of the PSD walker of [src/main.cpp]: the
    big-endian stream reads, the section readers, the packed-bits
    decoder [uncompressRLE], the channel compositor
    [compoundLayerChannel], the additional-block scanner
    [scanAdditionalLayerInfo] and the orchestration in [main].

    Conventions.
    - [int] and [qint64] values are [Z]; the unsigned fixed-width types
      are [Z] with the wrap-around written out ([wrap32], [wrap16]).
      Signed arithmetic is taken in [Z]: where it could overflow in
      the program, which is undefined, the properties are stated for
      values within the range of an [int].
    - a [QByteArray] is a [list byte]; [char] is signed, as on the
      platforms the program is built for.
    - a [QDataStream] is the list of bytes left after the cursor
      together with its sticky status; a read past the end yields zero
      and consumes what was left, as [QDataStream::operator>>] does.
    - the device is a regular file: reading to its end is not an error
      of the device, so the [file.error()] exits are not taken.
    - an object declared without an initialiser holds an arbitrary
      value, passed to the model from outside. *)

From Stdlib Require Import ZArith List Lia Bool.
From stdpp Require Import base numbers list.
From coqutil Require Import Byte.
From Equations Require Import Equations.
Import ListNotations.

Local Open Scope Z_scope.

(** ** Fixed-width arithmetic *)

Definition wrap16 (z : Z) : Z := z mod 2 ^ 16.
Definition wrap32 (z : Z) : Z := z mod 2 ^ 32.

(** Conversion of an unsigned 32-bit value to [int] (two's complement). *)
Definition toInt32 (z : Z) : Z :=
  let u := wrap32 z in if u <? 2 ^ 31 then u else u - 2 ^ 32.

(** Conversion of an unsigned 16-bit value to [qint16]. *)
Definition toInt16 (z : Z) : Z :=
  let u := wrap16 z in if u <? 2 ^ 15 then u else u - 2 ^ 16.

(** A [char] read as a signed 8-bit value. *)
Definition charValue (b : byte) : Z :=
  let u := byte.unsigned b in if u <? 128 then u else u - 256.

(** A [QByteArray] is a list of bytes. *)
Abbreviation QByteArray := (list byte).

(** [QByteArray(n, '\0')]: a non-positive size gives the empty array. *)
Definition zeroBytes (n : Z) : QByteArray := replicate (Z.to_nat n) Byte.x00.

(** ** The stream over the compressed bytes inside [uncompressRLE]

    [QDataStream in(compressed)]: the status of this stream is never
    consulted by the decoder, so only the bytes after the cursor are
    kept. *)

Module RLEStream.

Definition atEnd (s : list byte) : bool :=
  match s with [] => true | _ => false end.

(** [in >> c] for a [char]: zero when nothing is left. *)
Definition readChar (s : list byte) : byte * list byte :=
  match s with
  | [] => (Byte.x00, [])
  | b :: r => (b, r)
  end.

(** [in >> v] for a [quint16], big-endian: zero, with the stream drained,
    when fewer than two bytes are left. *)
Definition readUInt16 (s : list byte) : Z * list byte :=
  match s with
  | b1 :: b2 :: r => (256 * byte.unsigned b1 + byte.unsigned b2, r)
  | _ => (0, [])
  end.

End RLEStream.

(** ** RLE codec: [uncompressRLE] *)

(** The length-table loop: [height] entries, each guarded by [atEnd]. *)
Fixpoint readLengthTable (count : nat) (s : list byte)
  : option (list Z * list byte) :=
  match count with
  | O => Some ([], s)
  | S count' =>
      if RLEStream.atEnd s then None
      else
        let '(v, s1) := RLEStream.readUInt16 s in
        match readLengthTable count' s1 with
        | None => None
        | Some (table, s2) => Some (v :: table, s2)
        end
  end.

(** State of the scanline loop: the write cursor, the scanline buffer,
    the stream, and [written], a ghost log of the indices stored into
    the scanline buffer (it has no counterpart in the source and no
    influence on the other components). *)
Record LineState : Type := mkLineState {
  scanLinePos : Z;
  scanLine : QByteArray;
  written : list Z;
  input : list byte
}.

(** [for (j = 0; j < n; j++, scanLinePos++) scanLine[scanLinePos] = data;] *)
Fixpoint fillRun (n : nat) (data : byte) (st : LineState) : LineState :=
  match n with
  | O => st
  | S n' =>
      fillRun n' data
        (mkLineState (scanLinePos st + 1)
           (<[Z.to_nat (scanLinePos st) := data]> (scanLine st))
           (scanLinePos st :: written st)
           (input st))
  end.

(** [for (j = 0; j < n; j++, scanLinePos++) { in >> data; i++;
    scanLine[scanLinePos] = data; }] *)
Fixpoint copyRun (n : nat) (st : LineState) : LineState :=
  match n with
  | O => st
  | S n' =>
      let '(data, s1) := RLEStream.readChar (input st) in
      copyRun n'
        (mkLineState (scanLinePos st + 1)
           (<[Z.to_nat (scanLinePos st) := data]> (scanLine st))
           (scanLinePos st :: written st)
           s1)
  end.

(** One iteration of the scanline loop.  [None] is [return QByteArray()];
    otherwise the number of times [i++] ran and the new state. *)
Definition decodeRun (width : Z) (st : LineState) : option (Z * LineState) :=
  let '(code, s1) := RLEStream.readChar (input st) in
  if charValue code <? 0 then
    let continuousLength := 1 - charValue code in
    if continuousLength + scanLinePos st >? width then None
    else
      let '(data, s2) := RLEStream.readChar s1 in
      Some (2, fillRun (Z.to_nat continuousLength) data
                 (mkLineState (scanLinePos st) (scanLine st) (written st) s2))
  else
    let discontinuousLength := charValue code + 1 in
    if discontinuousLength + scanLinePos st >? width then None
    else
      Some (1 + discontinuousLength,
            copyRun (Z.to_nat discontinuousLength)
              (mkLineState (scanLinePos st) (scanLine st) (written st) s1)).

(** A value together with the equation that names it, for the guards of
    recursive definitions. *)
Definition inspect {A : Type} (x : A) : {y : A | x = y} := exist _ x eq_refl.

(** [for (int i = 0; i < lengthTable[y];) { ... }] *)
Equations? decodeScanLine (width len i : Z) (st : LineState)
  : option LineState by wf (Z.to_nat (len - i)) lt :=
decodeScanLine width len i st with Z_lt_dec i len := {
  | right _ := Some st
  | left _ with inspect (decodeRun width st) := {
      | exist _ None _ := None
      | exist _ (Some (di, st')) Hrun := decodeScanLine width len (i + di) st' } }.
Proof.
  assert (1 <= di); [|lia].
  unfold decodeRun in Hrun.
  destruct (RLEStream.readChar (input st)) as [code s1].
  destruct (charValue code <? 0) eqn:Hneg.
  - destruct (_ >? _); [discriminate|].
    destruct (RLEStream.readChar s1). injection Hrun as <- _. lia.
  - destruct (_ >? _); [discriminate|].
    injection Hrun as <- _. apply Z.ltb_ge in Hneg. lia.
Qed.

(** [for (x = 0; x < width; x++) channel[y * width + x] = scanLine[x];] *)
Fixpoint transferScanLine (count : nat) (x : Z) (y width : Z)
  (line channel : QByteArray) : QByteArray :=
  match count with
  | O => channel
  | S count' =>
      transferScanLine count' (x + 1) y width line
        (<[Z.to_nat (y * width + x) := nth (Z.to_nat x) line Byte.x00]> channel)
  end.

(** The loop over the scanlines; [lengthTable[y]] is the head of the
    remaining table.  The second component collects the ghost write
    log as pairs [(y, x)]. *)
Fixpoint decodeScanLines (width : Z) (y : Z) (table : list Z)
  (s : list byte) (channel : QByteArray) (log : list (Z * Z))
  : option (QByteArray * list (Z * Z)) :=
  match table with
  | [] => Some (channel, log)
  | len :: table' =>
      match decodeScanLine width len 0
              (mkLineState 0 (zeroBytes width) [] s) with
      | None => None
      | Some st =>
          decodeScanLines width (y + 1) table' (input st)
            (transferScanLine (Z.to_nat width) 0 y width (scanLine st) channel)
            (log ++ map (pair y) (written st))
      end
  end.

(** The decoder with its ghost log; a failure returns the empty array.
    [width * height] and the offsets [y * width + x] are taken in the
    integers.  The program forms them in [int], so the definition
    stands for the program where [width], [height] and their product
    are values of an [int]; past that the program's arithmetic
    overflows, which is undefined.  The properties of the decoder are
    stated within that bound. *)
Definition uncompressRLE_run (width height : Z) (compressed : QByteArray)
  : QByteArray * list (Z * Z) :=
  match readLengthTable (Z.to_nat height) compressed with
  | None => ([], [])
  | Some (lengthTable, s) =>
      match decodeScanLines width 0 lengthTable s
              (zeroBytes (width * height)) [] with
      | None => ([], [])
      | Some r => r
      end
  end.

Definition uncompressRLE (width height : Z) (compressed : QByteArray)
  : QByteArray :=
  fst (uncompressRLE_run width height compressed).

(** ** Channel compositor: [compoundLayerChannel] *)

(** A [QImage] of format ARGB32: its size and its pixels in row-major
    order, each a 32-bit value [0xAARRGGBB]. *)
Module QImage.

Record t : Type := mk { width : Z; height : Z; bits : list Z }.

(** [img.pixel(x, y)] *)
Definition pixel (img : t) (x y : Z) : Z :=
  nth (Z.to_nat (y * width img + x)) (bits img) 0.

(** [img.setPixel(x, y, rgb)] *)
Definition setPixel (img : t) (x y rgb : Z) : t :=
  mk (width img) (height img)
     (<[Z.to_nat (y * width img + x) := rgb]> (bits img)).

(** The null image, [QImage()]. *)
Definition null : t := mk 0 0 [].

(** [QImage(width, height, QImage::Format_ARGB32)]: the pixel data is not
    initialised by Qt, [fresh] stands for whatever the buffer holds; an
    empty size gives the null image.  The buffer is taken to be
    allocated: Qt gives the null image as well when it refuses the size
    or cannot allocate it, an outcome this definition does not have, so
    what is stated about the extent of a created image leaves the null
    image open. *)
Definition create (w h : Z) (fresh : list Z) : t :=
  if (0 <? w) && (0 <? h)
  then mk w h (resize (Z.to_nat (w * h)) 0 fresh)
  else null.

End QImage.

(** The three ways [compoundLayerChannel] ends; the last two are its
    [return] statements, told apart by their message. *)
Inductive CompoundOutcome : Type :=
| Composited
| SourceOutOfRange
| UnknownChannel.

(** The [switch (channel)]: the new pixel value, or [None] for [default]. *)
Definition mergeSubPixel (channel pixel subPixel : Z) : option Z :=
  if channel =? -1 then
    Some (Z.lor (Z.land pixel 0x00FFFFFF) (Z.shiftl subPixel 24))
  else if channel =? 0 then
    Some (Z.lor (Z.land pixel 0xFF00FFFF) (Z.shiftl subPixel 16))
  else if channel =? 1 then
    Some (Z.lor (Z.land pixel 0xFFFF00FF) (Z.shiftl subPixel 8))
  else if channel =? 2 then
    Some (Z.lor (Z.land pixel 0xFFFFFF00) (Z.shiftl subPixel 0))
  else None.

(** The body of the two loops for one pixel; [inr] is an early [return]. *)
Definition compoundPixel (bytes : QByteArray) (channel : Z) (x y : Z)
  (img : QImage.t) : QImage.t + CompoundOutcome :=
  let pixel := QImage.pixel img x y in
  let offset := y * QImage.width img + x in
  if offset >=? Z.of_nat (length bytes) then inr SourceOutOfRange
  else
    let subPixel := byte.unsigned (nth (Z.to_nat offset) bytes Byte.x00) in
    match mergeSubPixel channel pixel subPixel with
    | Some pixel' => inl (QImage.setPixel img x y pixel')
    | None => inr UnknownChannel
    end.

(** [for (x = ...; x < img.width(); x++)] with [count] iterations left. *)
Fixpoint compoundRow (count : nat) (bytes : QByteArray) (channel : Z)
  (x y : Z) (img : QImage.t) : QImage.t * option CompoundOutcome :=
  match count with
  | O => (img, None)
  | S count' =>
      match compoundPixel bytes channel x y img with
      | inr why => (img, Some why)
      | inl img' => compoundRow count' bytes channel (x + 1) y img'
      end
  end.

(** [for (y = ...; y < img.height(); y++)] with [count] iterations left. *)
Fixpoint compoundRows (count : nat) (bytes : QByteArray) (channel : Z)
  (y : Z) (img : QImage.t) : QImage.t * CompoundOutcome :=
  match count with
  | O => (img, Composited)
  | S count' =>
      match compoundRow (Z.to_nat (QImage.width img)) bytes channel 0 y img with
      | (img', Some why) => (img', why)
      | (img', None) => compoundRows count' bytes channel (y + 1) img'
      end
  end.

Definition compoundLayerChannel (img : QImage.t) (bytes : QByteArray)
  (channel : Z) : QImage.t * CompoundOutcome :=
  compoundRows (Z.to_nat (QImage.height img)) bytes channel 0 img.

(** The byte lanes of an ARGB32 pixel. *)
Definition qAlpha (rgb : Z) : Z := Z.land (Z.shiftr rgb 24) 0xFF.
Definition qRed (rgb : Z) : Z := Z.land (Z.shiftr rgb 16) 0xFF.
Definition qGreen (rgb : Z) : Z := Z.land (Z.shiftr rgb 8) 0xFF.
Definition qBlue (rgb : Z) : Z := Z.land rgb 0xFF.

(** ** Byte cursor: the [QDataStream] over the document

    The bytes after the cursor and the sticky status ([ok] is
    [status() == QDataStream::Ok]).  A read that finds fewer bytes than
    it asks for consumes what is left and sets [ReadPastEnd]; later
    reads go on all the same.  [skipRawData] takes a [qint64]; every
    length the walker passes to it is an unsigned 32-bit value. *)
Module DS.

Record t : Type := mk { rest : list byte; ok : bool }.

Definition atEnd (ds : t) : bool :=
  match rest ds with [] => true | _ => false end.

(** [readBlock]: the device hands out what it has, at most [len] bytes;
    anything less than [len] sets [ReadPastEnd]. *)
Definition readBlock (len : Z) (ds : t) : list byte * t :=
  let available := Z.of_nat (length (rest ds)) in
  let n := Z.to_nat (Z.min len available) in
  (take n (rest ds), mk (drop n (rest ds)) (ok ds && (len <=? available))).

(** Big-endian value of a byte string. *)
Definition bigEndian (bs : list byte) : Z :=
  fold_left (fun acc b => 256 * acc + byte.unsigned b) bs 0.

(** [ds >> v] for an unsigned integer of [n] bytes: zero on a short read. *)
Definition readUInt (n : Z) (ds : t) : Z * t :=
  let '(bs, ds') := readBlock n ds in
  ((if Z.of_nat (length bs) =? n then bigEndian bs else 0), ds').

Definition readUInt8 : t -> Z * t := readUInt 1.
Definition readUInt16 : t -> Z * t := readUInt 2.
Definition readUInt32 : t -> Z * t := readUInt 4.

Definition readInt16 (ds : t) : Z * t :=
  let '(v, ds') := readUInt16 ds in (toInt16 v, ds').

(** [ds.readRawData(buf, len)] into a buffer [QByteArray(len, '\0')]:
    the bytes obtained, followed by the zeros the read did not reach. *)
Definition readRawData (len : Z) (ds : t) : QByteArray * t :=
  let '(bs, ds') := readBlock len ds in
  (bs ++ zeroBytes (len - Z.of_nat (length bs)), ds').

(** [ds.skipRawData(len)]: a negative length skips nothing and is an
    error of the device. *)
Definition skipRawData (len : Z) (ds : t) : t :=
  if len <? 0 then mk (rest ds) false
  else snd (readBlock len ds).

End DS.

(** Readers thread the stream: a small state monad. *)
Definition Reader (A : Type) : Type := DS.t -> A * DS.t.

Definition ret {A : Type} (a : A) : Reader A := fun ds => (a, ds).

Definition bind {A B : Type} (m : Reader A) (k : A -> Reader B) : Reader B :=
  fun ds => let '(a, ds') := m ds in k a ds'.

Notation "'read' x 'from' m 'in' k" := (bind m (fun x => k))
  (at level 10, x name, m at level 100, k at level 200,
   format "'[v' 'read'  x  'from'  m  'in' '/' k ']'").

Definition skip (len : Z) : Reader unit := fun ds => (tt, DS.skipRawData len ds).

(** ** Sections of the document *)

Definition PSDSignature8BPS : Z := 0x38425053.
Definition PSDSignature8BIM : Z := 0x3842494D.
Definition PSDSignature8B64 : Z := 0x38623634.

Definition PSDChannelInfosize : Z := 6.
Definition PSDLayerRecordSize : Z := 34.
Definition PSDGlboalLayerMaskInfoDataOffset : Z := 13.
Definition PSDAdditionalLayerInfoDataOffset : Z := 8.
Definition PSDAdditionalLayerInfoSize : Z := 12.

Module PSDFileHeaderSection.
Record t : Type := mk {
  signature : Z; version : Z; reserved : list (option byte); channels : Z;
  height : Z; width : Z; depth : Z; colorMode : Z
}.
End PSDFileHeaderSection.

Module PSDLayerInfo.
Record t : Type := mk { length : Z; layerCount : Z }.
End PSDLayerInfo.

Module PSDChannelInfo.
Record t : Type := mk { channelId : Z; correspondingChannelDataLength : Z }.
End PSDChannelInfo.

Module PSDLayerRecord.
Record t : Type := mk {
  top : Z; left : Z; bottom : Z; right : Z;
  channels : Z;
  channelInfos : list PSDChannelInfo.t;
  signature : Z;
  blendModeKey : Z;
  opacity : Z; clipping : Z; flags : Z; filler : Z;
  extraDataFieldLength : Z
}.
End PSDLayerRecord.

Module PSDGlobalLayerMaskInfo.
Record t : Type := mk {
  length : Z;
  overlayColorSpace : Z;
  colorComponents : list Z;
  opacity : Z;
  kind : Z
}.
End PSDGlobalLayerMaskInfo.

Module PSDAdditionalLayerInfo.
Record t : Type := mk { signature : Z; characterCode : Z; length : Z }.
End PSDAdditionalLayerInfo.

(** [ds.readRawData(d.reserved, 6)] into the array of a header that is
    declared without an initialiser: the bytes obtained, and [None] for
    each byte the read did not reach, which keeps whatever the array
    held. *)
Definition readReserved : Reader (list (option byte)) := fun ds =>
  let '(bs, ds') := DS.readBlock 6 ds in
  (map Some bs ++ replicate (Z.to_nat (6 - Z.of_nat (length bs))) None, ds').

(** [operator>>(QDataStream&, PSDFileHeaderSection&)] *)
Definition readPSDFileHeaderSection : Reader PSDFileHeaderSection.t :=
  read signature from DS.readUInt32 in
  read version from DS.readUInt16 in
  read reserved from readReserved in
  read channels from DS.readUInt16 in
  read height from DS.readUInt32 in
  read width from DS.readUInt32 in
  read depth from DS.readUInt16 in
  read colorMode from DS.readUInt16 in
  ret (PSDFileHeaderSection.mk signature version reserved channels
         height width depth colorMode).

(** [operator>>] for [PSDColorModeDataSection] and for
    [PSDImageResouceSection]: the length, then its payload is skipped. *)
Definition readPSDColorModeDataSection : Reader Z :=
  read length from DS.readUInt32 in
  read _ from skip length in
  ret length.

Definition readPSDImageResouceSection : Reader Z :=
  read length from DS.readUInt32 in
  read _ from skip length in
  ret length.

(** [operator>>(QDataStream&, PSDLayerAndMaskInfoSection&)] *)
Definition readPSDLayerAndMaskInfoSection : Reader Z := DS.readUInt32.

(** [operator>>(QDataStream&, PSDLayerInfo&)] *)
Definition readPSDLayerInfo : Reader PSDLayerInfo.t :=
  read length from DS.readUInt32 in
  read layerCount from DS.readInt16 in
  ret (PSDLayerInfo.mk length layerCount).

(** [operator>>(QDataStream&, PSDGlobalLayerMaskInfo&)]; [d] is the
    object the caller passes in: the fields that are not read keep what
    it held. *)
Definition readPSDGlobalLayerMaskInfo (d : PSDGlobalLayerMaskInfo.t)
  : Reader PSDGlobalLayerMaskInfo.t :=
  read length from DS.readUInt32 in
  if length =? 0 then
    ret (PSDGlobalLayerMaskInfo.mk length
           (PSDGlobalLayerMaskInfo.overlayColorSpace d)
           (PSDGlobalLayerMaskInfo.colorComponents d)
           (PSDGlobalLayerMaskInfo.opacity d)
           (PSDGlobalLayerMaskInfo.kind d))
  else
    read overlayColorSpace from DS.readUInt16 in
    read c0 from DS.readUInt16 in
    read c1 from DS.readUInt16 in
    read c2 from DS.readUInt16 in
    read c3 from DS.readUInt16 in
    read opacity from DS.readUInt16 in
    read kind from DS.readUInt8 in
    read _ from skip (wrap32 (length - PSDGlboalLayerMaskInfoDataOffset)) in
    ret (PSDGlobalLayerMaskInfo.mk length overlayColorSpace [c0; c1; c2; c3]
           opacity kind).

(** [operator>>(QDataStream&, PSDAdditionalLayerInfo&)] *)
Definition readPSDAdditionalLayerInfo (d : PSDAdditionalLayerInfo.t)
  : Reader PSDAdditionalLayerInfo.t :=
  read signature from DS.readUInt32 in
  if negb (signature =? PSDSignature8BIM) && negb (signature =? PSDSignature8B64)
  then
    ret (PSDAdditionalLayerInfo.mk signature
           (PSDAdditionalLayerInfo.characterCode d)
           (PSDAdditionalLayerInfo.length d))
  else
    read characterCode from DS.readUInt32 in
    read length from DS.readUInt32 in
    ret (PSDAdditionalLayerInfo.mk signature characterCode length).

(** The channel-descriptor loop of the layer-record reader. *)
Fixpoint readChannelInfos (count : nat) (acc : list PSDChannelInfo.t)
  : Reader (list PSDChannelInfo.t) :=
  match count with
  | O => ret acc
  | S count' =>
      read channelId from DS.readInt16 in
      read len from DS.readUInt32 in
      readChannelInfos count' (acc ++ [PSDChannelInfo.mk channelId len])
  end.

(** [operator>>(QDataStream&, PSDLayerRecord&)]; [d] is the record the
    caller passes in. *)
Definition readPSDLayerRecord (d : PSDLayerRecord.t) : Reader PSDLayerRecord.t :=
  read top from DS.readUInt32 in
  read left from DS.readUInt32 in
  read bottom from DS.readUInt32 in
  read right from DS.readUInt32 in
  read channels from DS.readUInt16 in
  read channelInfos from
    readChannelInfos (Z.to_nat channels) (PSDLayerRecord.channelInfos d) in
  read signature from DS.readUInt32 in
  if negb (signature =? PSDSignature8BIM) then
    ret (PSDLayerRecord.mk top left bottom right channels channelInfos signature
           (PSDLayerRecord.blendModeKey d)
           (PSDLayerRecord.opacity d) (PSDLayerRecord.clipping d)
           (PSDLayerRecord.flags d) (PSDLayerRecord.filler d)
           (PSDLayerRecord.extraDataFieldLength d))
  else
    read blendModeKey from DS.readUInt32 in
    read opacity from DS.readUInt8 in
    read clipping from DS.readUInt8 in
    read flags from DS.readUInt8 in
    read filler from DS.readUInt8 in
    read extraDataFieldLength from DS.readUInt32 in
    ret (PSDLayerRecord.mk top left bottom right channels channelInfos signature
           blendModeKey opacity clipping flags filler extraDataFieldLength).

(** ** Additional-block scanner: [scanAdditionalLayerInfo] *)

(** How the scan ends: the normal exit of the loop, or one of its
    [return -1] statements, told apart by their message.  The device
    is a regular file read to its end, so [file.error()] stays
    [NoError] and that exit is not taken. *)
Inductive ScanOutcome : Type :=
| ScanDone
| RemainderTooSmall
| EndOfStream
| InvalidBlockSignature.

(** The [int] returned for each outcome. *)
Definition scanReturn (o : ScanOutcome) : Z :=
  match o with ScanDone => 0 | _ => -1 end.

(** The outcome with the values of [remBytes] and of the stream left
    behind. *)
Record ScanEnd : Type := mkScanEnd {
  outcome : ScanOutcome;
  finalRemBytes : Z;
  finalStream : DS.t
}.

(** [rem == 0 ? 0 : align - rem] with [rem = length % align] *)
Definition paddingTo (align length : Z) : Z :=
  let rem := length mod align in if rem =? 0 then 0 else align - rem.

(** The bytes a block takes from the budget, an unsigned 32-bit sum. *)
Definition blockConsumed (length : Z) : Z :=
  wrap32 (length + paddingTo 4 length + PSDAdditionalLayerInfoSize).

Section Walker.

(** What the objects that [main] and the scanner declare without an
    initialiser hold before they are read into: the layer record of the
    [k]-th iteration (its [QList] starts empty), the pixel buffer of the
    [k]-th layer image, the global mask record and the block header. *)
Variable indeterminateRecord : nat -> PSDLayerRecord.t.
Variable indeterminatePixels : nat -> list Z.
Variable indeterminateGlobal : PSDGlobalLayerMaskInfo.t.
Variable indeterminateBlock : PSDAdditionalLayerInfo.t.

(** [while (remBytes > 0) { ... }] *)
Equations? scanLoop (ds : DS.t) (remBytes : Z) : ScanEnd
  by wf (length (DS.rest ds)) lt :=
scanLoop ds remBytes with Z_gt_dec remBytes 0 := {
  | right _ := mkScanEnd ScanDone remBytes ds
  | left _ with Z_lt_dec remBytes PSDAdditionalLayerInfoDataOffset := {
      | left _ := mkScanEnd RemainderTooSmall remBytes ds
      | right _ with inspect (DS.atEnd ds) := {
          | exist _ true _ := mkScanEnd EndOfStream remBytes ds
          | exist _ false Hmore
              with inspect (readPSDAdditionalLayerInfo indeterminateBlock ds) := {
              | exist _ (additionalLayerInfo, ds1) Hread
                  with Z.eq_dec (PSDAdditionalLayerInfo.signature additionalLayerInfo)
                         PSDSignature8BIM := {
                  | right _ := mkScanEnd InvalidBlockSignature remBytes ds1
                  | left _ :=
                      scanLoop
                        (DS.skipRawData
                           (wrap32 (PSDAdditionalLayerInfo.length additionalLayerInfo
                                    + paddingTo 4 (PSDAdditionalLayerInfo.length
                                                     additionalLayerInfo)))
                           ds1)
                        (remBytes
                         - blockConsumed (PSDAdditionalLayerInfo.length
                                            additionalLayerInfo)) } } } } }.
Proof.
  unfold DS.atEnd in Hmore.
  destruct ds as [bytes st]; simpl in *.
  destruct bytes as [|b0 bytes]; [discriminate|].
  assert (Hlen : (length (DS.rest ds1) <= length bytes)%nat).
  { unfold readPSDAdditionalLayerInfo, bind, ret, DS.readUInt32, DS.readUInt,
      DS.readBlock in Hread; cbn [DS.rest DS.ok] in Hread.
    destruct (_ && _) in Hread; injection Hread as _ <-; cbn [DS.rest];
      rewrite ?length_drop; cbn [length]; lia. }
  unfold DS.skipRawData, DS.readBlock.
  destruct (_ <? 0); cbn [snd DS.rest length]; rewrite ?length_drop; lia.
Qed.

Definition scanAdditionalLayerInfo (ds : DS.t) (remBytes : Z) : Z :=
  scanReturn (outcome (scanLoop ds remBytes)).

(** ** Layer decode: [loadPSDLayer] *)

(** The channel loop of [loadPSDLayer]; [None] is [goto compression_error].
    The size test compares with the product [width * height] of the
    integers, the program's [int] product where that does not
    overflow. *)
Fixpoint loadChannels (width height : Z) (infos : list PSDChannelInfo.t)
  (image : QImage.t) (ds : DS.t) : option QImage.t * DS.t :=
  match infos with
  | [] => (Some image, ds)
  | info :: infos' =>
      let '(compressionMode, ds1) := DS.readUInt16 ds in
      if negb (DS.ok ds1) then (None, ds1)
      else
        let length :=
          wrap32 (PSDChannelInfo.correspondingChannelDataLength info - 2) in
        if compressionMode =? 0 then
          let '(raw, ds2) := DS.readRawData length ds1 in
          loadChannels width height infos'
            (fst (compoundLayerChannel image raw (PSDChannelInfo.channelId info)))
            ds2
        else if compressionMode =? 1 then
          let '(compressed, ds2) := DS.readRawData length ds1 in
          let raw := uncompressRLE width height compressed in
          if negb (Z.of_nat (List.length raw) =? width * height) then (None, ds2)
          else
            loadChannels width height infos'
              (fst (compoundLayerChannel image raw (PSDChannelInfo.channelId info)))
              ds2
        else (None, ds1)
  end.

(** [loadPSDLayer]: the image, [*ok], and the stream afterwards; [fresh]
    is the content of the new image's pixel buffer. *)
Definition loadPSDLayer (fresh : list Z) (ds : DS.t) (record : PSDLayerRecord.t)
  : QImage.t * bool * DS.t :=
  let width :=
    toInt32 (PSDLayerRecord.right record - PSDLayerRecord.left record) in
  let height :=
    toInt32 (PSDLayerRecord.bottom record - PSDLayerRecord.top record) in
  let image := QImage.create width height fresh in
  match loadChannels width height (PSDLayerRecord.channelInfos record) image ds with
  | (Some image', ds') => (image', true, ds')
  | (None, ds') => (QImage.null, false, ds')
  end.

(** ** Document walker: [main] *)

(** The record declared by the [layer]-th iteration before it is read. *)
Definition freshRecord (layer : nat) : PSDLayerRecord.t :=
  let d := indeterminateRecord layer in
  PSDLayerRecord.mk
    (PSDLayerRecord.top d) (PSDLayerRecord.left d)
    (PSDLayerRecord.bottom d) (PSDLayerRecord.right d)
    (PSDLayerRecord.channels d) []
    (PSDLayerRecord.signature d) (PSDLayerRecord.blendModeKey d)
    (PSDLayerRecord.opacity d) (PSDLayerRecord.clipping d)
    (PSDLayerRecord.flags d) (PSDLayerRecord.filler d)
    (PSDLayerRecord.extraDataFieldLength d).

(** The layer-record loop, [count] iterations left: the records and the
    running [consumedLayerInfoSize]. *)
Fixpoint readLayerRecords (count layer : nat)
  (records : list PSDLayerRecord.t) (consumedLayerInfoSize : Z)
  : Reader (list PSDLayerRecord.t * Z) :=
  match count with
  | O => ret (records, consumedLayerInfoSize)
  | S count' =>
      read record from readPSDLayerRecord (freshRecord layer) in
      let consumed1 :=
        wrap32 (consumedLayerInfoSize
                + (PSDLayerRecordSize
                   + PSDChannelInfosize
                     * Z.of_nat (List.length (PSDLayerRecord.channelInfos record)))) in
      let consumed2 :=
        wrap32 (consumed1 + PSDLayerRecord.extraDataFieldLength record) in
      read _ from skip (PSDLayerRecord.extraDataFieldLength record) in
      readLayerRecords count' (S layer) (records ++ [record]) consumed2
  end.

(** The image loop: the images saved so far and whether every layer
    loaded ([false] is the [return -1] of a failed layer). *)
Fixpoint loadLayers (i : nat) (records : list PSDLayerRecord.t)
  (saved : list QImage.t) (ds : DS.t) : list QImage.t * bool * DS.t :=
  match records with
  | [] => (saved, true, ds)
  | record :: records' =>
      match loadPSDLayer (indeterminatePixels i) ds record with
      | (_, false, ds') => (saved, false, ds')
      | (image, true, ds') => loadLayers (S i) records' (saved ++ [image]) ds'
      end
  end.

(** The sum of the channel data lengths of all records, in 32 bits. *)
Definition sumChannelImageData (records : list PSDLayerRecord.t) : Z :=
  fold_left
    (fun acc record =>
       fold_left
         (fun acc' info =>
            wrap32 (acc' + PSDChannelInfo.correspondingChannelDataLength info))
         (PSDLayerRecord.channelInfos record) acc)
    records 0.

(** The locals of [main] when it reaches the comparison of
    [layerInfo.length] with the bytes accounted for. *)
Record WalkState : Type := mkWalkState {
  stream : DS.t;
  layerAndMaskInfoSection_length : Z;
  layerInfo : PSDLayerInfo.t;
  records : list PSDLayerRecord.t;
  images : list QImage.t;
  consumedLayerInfoSize : Z;
  channelImageDataSize : Z
}.

(** [main] from the file header to that comparison; [inl] is an early
    [return -1] with the images saved before it. *)
Definition walkLayers (file : QByteArray) : (Z * list QImage.t) + WalkState :=
  let ds0 := DS.mk file true in
  let '(fileHeader, ds1) := readPSDFileHeaderSection ds0 in
  if negb (PSDFileHeaderSection.signature fileHeader =? PSDSignature8BPS)
  then inl (-1, [])
  else if negb (PSDFileHeaderSection.version fileHeader =? 1)
  then inl (-1, [])
  else
    let '(_, ds2) := readPSDColorModeDataSection ds1 in
    let '(_, ds3) := readPSDImageResouceSection ds2 in
    let '(lamiLength, ds4) := readPSDLayerAndMaskInfoSection ds3 in
    let '(info, ds5) := readPSDLayerInfo ds4 in
    let absoluteLayerCount := wrap16 (Z.abs (PSDLayerInfo.layerCount info)) in
    let '((recs, consumed), ds6) :=
      readLayerRecords (Z.to_nat absoluteLayerCount) 0 [] 2 ds5 in
    match loadLayers 0 recs [] ds6 with
    | (saved, false, _) => inl (-1, saved)
    | (saved, true, ds7) =>
        let channelSize := sumChannelImageData recs in
        let padding := paddingTo 2 channelSize in
        let ds8 := if padding =? 0 then ds7 else DS.skipRawData padding ds7 in
        inr (mkWalkState ds8 lamiLength info recs saved consumed channelSize)
    end.

(** The test that guards the [layerInfo.length missmatch] message. *)
Definition layerInfoLengthMismatch (w : WalkState) : bool :=
  negb (PSDLayerInfo.length (layerInfo w)
        =? wrap32 (consumedLayerInfoSize w + channelImageDataSize w)).

(** The call site of the scanner: the stream after the global layer mask
    info and the value of [layerAndMaskInfoRem]. *)
Definition scannerCall (w : WalkState) : DS.t * Z :=
  let layerAndMaskInfoRem :=
    wrap32 (layerAndMaskInfoSection_length w
            - (4 + consumedLayerInfoSize w + channelImageDataSize w)) in
  let '(globalLayerMaskInfo, ds) :=
    readPSDGlobalLayerMaskInfo indeterminateGlobal (stream w) in
  (ds,
   wrap32 (layerAndMaskInfoRem
           - (PSDGlobalLayerMaskInfo.length globalLayerMaskInfo + 4))).

(** What a run of [main] leaves behind: its exit code, the layer images
    it saved, whether the length mismatch was reported, and the budget
    it handed to the scanner if it got that far. *)
Record MainResult : Type := mkMainResult {
  exitCode : Z;
  savedLayers : list QImage.t;
  mismatchReported : bool;
  scannerBudget : option Z
}.

Definition finishWalk (w : WalkState) : MainResult :=
  let '(ds, layerAndMaskInfoRem) := scannerCall w in
  mkMainResult
    (if negb (scanAdditionalLayerInfo ds layerAndMaskInfoRem =? 0) then -1 else 0)
    (images w)
    (layerInfoLengthMismatch w)
    (Some layerAndMaskInfoRem).

Definition main (file : QByteArray) : MainResult :=
  match walkLayers file with
  | inl (code, saved) => mkMainResult code saved false None
  | inr w => finishWalk w
  end.

End Walker.

(** ** A reference encoder for the RLE codec *)

(** Modelled from the spec: the encoder, the decoder's counterpart, is
    not part of the program.  The round-trip property is stated against
    this description of what a packed-bits encoder emits: per scanline
    a sequence of runs, each a repeat of 2 to 128 copies of one byte
    (control byte [1 - count]) or 1 to 128 literal bytes (control byte
    [count - 1]), preceded by the table of the scanlines' encoded
    lengths as big-endian 16-bit values. *)
Module Reference.

Inductive Run : Type :=
| Repeat (count : Z) (value : byte)
| Literal (bytes : list byte).

Definition wellFormedRun (r : Run) : Prop :=
  match r with
  | Repeat count _ => 2 <= count <= 128
  | Literal bytes => 1 <= Z.of_nat (length bytes) <= 128
  end.

(** The plane bytes a run stands for. *)
Definition decoded (r : Run) : list byte :=
  match r with
  | Repeat count value => replicate (Z.to_nat count) value
  | Literal bytes => bytes
  end.

(** The compressed bytes of a run. *)
Definition encodeRun (r : Run) : list byte :=
  match r with
  | Repeat count value => [byte.of_Z (1 - count); value]
  | Literal bytes => byte.of_Z (Z.of_nat (length bytes) - 1) :: bytes
  end.

Definition decodedLine (runs : list Run) : list byte :=
  concat (map decoded runs).

Definition encodeLine (runs : list Run) : list byte :=
  concat (map encodeRun runs).

Definition uint16 (v : Z) : list byte := [byte.of_Z (v / 256); byte.of_Z v].

Definition lengthTable (lines : list (list Run)) : list byte :=
  concat (map (fun runs => uint16 (Z.of_nat (length (encodeLine runs)))) lines).

(** The encoder's output for the scanlines [lines]. *)
Definition compress (lines : list (list Run)) : QByteArray :=
  lengthTable lines ++ concat (map encodeLine lines).

(** The plane that [lines] encodes. *)
Definition plane (lines : list (list Run)) : QByteArray :=
  concat (map decodedLine lines).

Definition wellFormedLine (width : Z) (runs : list Run) : Prop :=
  Forall wellFormedRun runs
  /\ Z.of_nat (length (decodedLine runs)) = width
  /\ Z.of_nat (length (encodeLine runs)) < 65536.

(** [lines] is a well-formed encoding of a plane of [width] by [height]:
    one run sequence per scanline, each covering exactly [width] bytes
    with an encoded length that fits the 16-bit table entry. *)
Definition wellFormed (width height : Z) (lines : list (list Run)) : Prop :=
  Z.of_nat (length lines) = height /\ Forall (wellFormedLine width) lines.

(** A concrete encoder: bytes are packed from the right, a byte joining
    the run in front of it when it repeats that run's value. *)
Definition pushByte (b : byte) (runs : list Run) : list Run :=
  match runs with
  | Repeat count value :: runs' =>
      if Byte.eqb b value && (count <? 128)
      then Repeat (count + 1) value :: runs'
      else Literal [b] :: runs
  | Literal [value] :: runs' =>
      if Byte.eqb b value then Repeat 2 value :: runs'
      else Literal [b] :: runs
  | _ => Literal [b] :: runs
  end.

Definition packLine (line : list byte) : list Run := foldr pushByte [] line.

Fixpoint scanLinesOf (height width : nat) (bytes : QByteArray)
  : list (list byte) :=
  match height with
  | O => []
  | S height' => take width bytes :: scanLinesOf height' width (drop width bytes)
  end.

Definition encodePlane (width height : Z) (bytes : QByteArray)
  : list (list Run) :=
  map packLine (scanLinesOf (Z.to_nat height) (Z.to_nat width) bytes).

End Reference.

(** ** Test vectors *)

Definition hex (l : list Z) : QByteArray := map byte.of_Z l.

Definition demoRecord : PSDLayerRecord.t :=
  PSDLayerRecord.mk 0 0 0 0 0 [] 0 0x6E6F726D 255 0 8 0 64.

Definition demoGlobal : PSDGlobalLayerMaskInfo.t :=
  PSDGlobalLayerMaskInfo.mk 0 0 [0; 0; 0; 0] 0 0.

Definition demoBlock : PSDAdditionalLayerInfo.t :=
  PSDAdditionalLayerInfo.mk 0 0 0.

(** ** Invariants used in the proofs *)

(** The buffer keeps its size, the cursor never goes back, and a cell
    that no run stored into still holds the zero it was created with. *)
Definition lineInv (width : Z) (st : LineState) : Prop :=
  0 <= scanLinePos st
  /\ length (scanLine st) = Z.to_nat width
  /\ forall k : nat,
       (k < Z.to_nat width)%nat -> ~ In (Z.of_nat k) (written st) ->
       scanLine st !! k = Some Byte.x00.


(** The four byte lanes of a pixel, in the order alpha, red, green,
    blue, and the lane a channel identifier selects. *)
Definition lanes (rgb : Z) : list Z := [qAlpha rgb; qRed rgb; qGreen rgb; qBlue rgb].

Definition laneOf (channel : Z) : option nat :=
  if channel =? -1 then Some 0%nat
  else if channel =? 0 then Some 1%nat
  else if channel =? 1 then Some 2%nat
  else if channel =? 2 then Some 3%nat
  else None.

(** A raster whose pixel buffer has the size its dimensions announce. *)
Definition wellFormedImage (img : QImage.t) : Prop :=
  0 <= QImage.width img /\ 0 <= QImage.height img
  /\ Z.of_nat (length (QImage.bits img)) = QImage.width img * QImage.height img.

(** The pixels after the first [n] of them, in row-major order, have
    received their byte of the plane. *)
Definition compoundedUpTo (bytes : QByteArray) (channel : Z) (n : nat)
  (bits : list Z) : list Z :=
  imap (fun k pixel =>
          if (k <? n)%nat
          then default pixel
                 (mergeSubPixel channel pixel
                    (byte.unsigned (nth k bytes Byte.x00)))
          else pixel) bits.

(** The length field of the global layer mask info that [main] reads
    after the layers. *)
Definition declaredGlobalLength (indeterminateGlobal : PSDGlobalLayerMaskInfo.t)
  (w : WalkState) : Z :=
  PSDGlobalLayerMaskInfo.length
    (fst (readPSDGlobalLayerMaskInfo indeterminateGlobal (stream w))).


(** A document with one 2 by 2 layer whose only channel, red, is stored
    raw, followed by one empty additional block; [layerInfoLength] is
    the length its layer info declares, 48 being the bytes accounted
    for. *)
Definition oneLayerDocument (layerInfoLength : Z) : QByteArray := hex
  ([0x38; 0x42; 0x50; 0x53;  0; 1;  0; 0; 0; 0; 0; 0;  0; 3;
    0; 0; 0; 2;  0; 0; 0; 2;  0; 8;  0; 3;
    0; 0; 0; 0;
    0; 0; 0; 0;
    0; 0; 0; 68;
    0; 0; 0; layerInfoLength;  0; 1;
    0; 0; 0; 0;  0; 0; 0; 0;  0; 0; 0; 2;  0; 0; 0; 2;
    0; 1;  0; 0;  0; 0; 0; 6;
    0x38; 0x42; 0x49; 0x4D;  0x6E; 0x6F; 0x72; 0x6D;  255; 0; 0; 0;
    0; 0; 0; 0;
    0; 0;  10; 20; 30; 40;
    0; 0; 0; 0;
    0x38; 0x42; 0x49; 0x4D;  0x61; 0x62; 0x63; 0x64;  0; 0; 0; 0]).

(** A document without layers whose layer-and-mask section declares the
    length 0, and whose only additional block declares a payload of
    [0xFFFFFFEC] bytes. *)
Definition underflowDocument : QByteArray := hex
  [0x38; 0x42; 0x50; 0x53;  0; 1;  0; 0; 0; 0; 0; 0;  0; 3;
   0; 0; 0; 1;  0; 0; 0; 1;  0; 8;  0; 3;
   0; 0; 0; 0;
   0; 0; 0; 0;
   0; 0; 0; 0;
   0; 0; 0; 2;  0; 0;
   0; 0; 0; 0;
   0x38; 0x42; 0x49; 0x4D;  0; 0; 0; 0;  0xFF; 0xFF; 0xFF; 0xEC].


(** The bytes of a layer record without channel descriptors whose
    signature reads [XXXX], followed by five bytes [9]. *)
Definition invalidSignatureRecord : QByteArray := hex
  [0; 0; 0; 0;  0; 0; 0; 0;  0; 0; 0; 1;  0; 0; 0; 1;
   0; 0;  0x58; 0x58; 0x58; 0x58;
   9; 9; 9; 9; 9].

(** The ghost log only holds positions in front of the write cursor,
    and the cursor stays within the scanline. *)
Definition logInv (width : Z) (st : LineState) : Prop :=
  0 <= scanLinePos st <= width
  /\ forall x, In x (written st) -> 0 <= x < scanLinePos st.

(** ** Notions used by the further properties *)

(** The second raster has the size of the first, and its pixels are
    32-bit values if those of the first are. *)
Definition rasterKept (img img' : QImage.t) : Prop :=
  QImage.width img' = QImage.width img
  /\ QImage.height img' = QImage.height img
  /\ length (QImage.bits img') = length (QImage.bits img)
  /\ (Forall (fun rgb => 0 <= rgb < 2 ^ 32) (QImage.bits img) ->
      Forall (fun rgb => 0 <= rgb < 2 ^ 32) (QImage.bits img')).

(** The extent of a layer as [loadPSDLayer] computes it, and the
    records whose extent is not negative and whose pixel count is a
    value of an [int]: the records for which the [int] arithmetic of
    the layer decode does not overflow. *)
Definition layerWidth (r : PSDLayerRecord.t) : Z :=
  toInt32 (PSDLayerRecord.right r - PSDLayerRecord.left r).

Definition layerHeight (r : PSDLayerRecord.t) : Z :=
  toInt32 (PSDLayerRecord.bottom r - PSDLayerRecord.top r).

Definition extentFits (r : PSDLayerRecord.t) : Prop :=
  0 <= layerWidth r /\ 0 <= layerHeight r
  /\ layerWidth r * layerHeight r <= 2 ^ 31 - 1.

(** The record of a layer of 3 by 2 pixels without channels. *)
Definition blankRecord : PSDLayerRecord.t :=
  PSDLayerRecord.mk 0 0 2 3 0 [] PSDSignature8BIM 0 0 0 0 0 0.

(** The sum of a list of integers. *)
Definition sumZ (l : list Z) : Z := fold_right Z.add 0 l.

(** The bytes [main] accounts for one layer record: the fixed part, six
    per channel descriptor and the extra data. *)
Definition recordBytes (r : PSDLayerRecord.t) : Z :=
  PSDLayerRecordSize
  + PSDChannelInfosize * Z.of_nat (length (PSDLayerRecord.channelInfos r))
  + PSDLayerRecord.extraDataFieldLength r.

(** The channel data lengths a record declares, and their sum over the
    records. *)
Definition channelLengths (r : PSDLayerRecord.t) : list Z :=
  map PSDChannelInfo.correspondingChannelDataLength (PSDLayerRecord.channelInfos r).

Definition declaredChannelBytes (records : list PSDLayerRecord.t) : Z :=
  sumZ (map (fun r => sumZ (channelLengths r)) records).

(** The bytes of one additional layer information block as the scanner
    takes them, written from its reads: the tag [8BIM], the key and the
    payload length as big-endian 32-bit values, the payload, and the
    padding that brings the payload to a multiple of four bytes. *)
Module AdditionalBlock.

Record t : Type := mk { key : Z; payload : QByteArray; padding : QByteArray }.

Definition uint32 (v : Z) : list byte :=
  [byte.of_Z (v / 2 ^ 24); byte.of_Z (v / 2 ^ 16); byte.of_Z (v / 2 ^ 8);
   byte.of_Z v].

Definition bytes (b : t) : QByteArray :=
  uint32 PSDSignature8BIM ++ uint32 (key b)
    ++ uint32 (Z.of_nat (length (payload b))) ++ payload b ++ padding b.

(** The key and the payload length fit their fields, and the padding has
    the length the scanner computes. *)
Definition wellFormed (b : t) : Prop :=
  0 <= key b < 2 ^ 32
  /\ Z.of_nat (length (payload b)) + 3 < 2 ^ 31
  /\ Z.of_nat (length (padding b)) = paddingTo 4 (Z.of_nat (length (payload b))).

End AdditionalBlock.
(** * Properties *)

(** ** Scenarios of the specification *)

Example spec_scenario_repeat :
  uncompressRLE 3 1 (hex [0; 2; 0xFE; 5]) = hex [5; 5; 5].
Proof. reflexivity. Qed.

Example spec_scenario_literal :
  uncompressRLE 3 1 (hex [0; 4; 2; 1; 2; 3]) = hex [1; 2; 3].
Proof. reflexivity. Qed.

Example compound_red_2x2 :
  map qRed (QImage.bits (fst (compoundLayerChannel (QImage.mk 2 2 [0;0;0;0]) (hex [10;20;30;40]) 0)))
  = [10;20;30;40].
Proof. reflexivity. Qed.

Example roundtrip_packLine :
  uncompressRLE 4 2 (Reference.compress (Reference.encodePlane 4 2 (hex [7;7;7;1; 2;3;3;3])))
  = hex [7;7;7;1; 2;3;3;3].
Proof. reflexivity. Qed.

(** ** The scanline loop *)

Lemma decodeScanLine_step width len i st :
  decodeScanLine width len i st =
  if Z_lt_dec i len then
    match decodeRun width st with
    | None => None
    | Some (di, st') => decodeScanLine width len (i + di) st'
    end
  else Some st.
Proof.
  funelim (decodeScanLine width len i st); rewrite Heq; cbn;
    try reflexivity;
    match goal with H : decodeRun _ _ = _ |- _ => rewrite H end;
    reflexivity.
Qed.

Lemma lineInv_store width st data s :
  lineInv width st ->
  lineInv width
    (mkLineState (scanLinePos st + 1)
       (<[Z.to_nat (scanLinePos st) := data]> (scanLine st))
       (scanLinePos st :: written st) s).
Proof.
  intros (Hpos & Hlen & Hzero); repeat split; cbn [scanLinePos scanLine written].
  - lia.
  - by rewrite length_insert.
  - intros k Hk Hnot.
    rewrite list_lookup_insert_ne.
    + apply Hzero; [done|]. intros Hin; apply Hnot; by right.
    + intros Heq. apply Hnot; left. lia.
Qed.

Lemma lineInv_input width st s :
  lineInv width st ->
  lineInv width (mkLineState (scanLinePos st) (scanLine st) (written st) s).
Proof. intros H; exact H. Qed.

Lemma fillRun_inv width n data st :
  lineInv width st -> lineInv width (fillRun n data st).
Proof.
  revert st; induction n as [|n IH]; intros st H; cbn; [done|].
  apply IH. by apply lineInv_store.
Qed.

Lemma copyRun_inv width n st :
  lineInv width st -> lineInv width (copyRun n st).
Proof.
  revert st; induction n as [|n IH]; intros st H; cbn; [done|].
  destruct (RLEStream.readChar (input st)) as [data s1].
  apply IH. by apply lineInv_store.
Qed.

Lemma decodeRun_inv width st di st' :
  decodeRun width st = Some (di, st') -> lineInv width st -> lineInv width st'.
Proof.
  unfold decodeRun; intros Hrun Hinv.
  destruct (RLEStream.readChar (input st)) as [code s1].
  destruct (charValue code <? 0).
  - destruct (_ >? _); [discriminate|].
    destruct (RLEStream.readChar s1) as [data s2].
    injection Hrun as _ <-. by apply fillRun_inv, lineInv_input.
  - destruct (_ >? _); [discriminate|].
    injection Hrun as _ <-. by apply copyRun_inv, lineInv_input.
Qed.

Lemma decodeScanLine_inv width len i st st' :
  decodeScanLine width len i st = Some st' ->
  lineInv width st -> lineInv width st'.
Proof.
  funelim (decodeScanLine width len i st); intros Hdec Hinv.
  - by injection Hdec as <-.
  - eauto using decodeRun_inv.
  - discriminate.
Qed.

Lemma lineInv_initial width s :
  0 <= width -> lineInv width (mkLineState 0 (zeroBytes width) [] s).
Proof.
  intros Hw; repeat split; cbn; [lia | apply length_replicate |].
  intros k Hk _. unfold zeroBytes. by apply lookup_replicate_2.
Qed.

(** ** Transfer of a scanline into the plane *)

Lemma transferScanLine_spec count : forall x y width line pre old post,
  0 <= x ->
  Z.of_nat (length pre) = y * width + x ->
  length old = count ->
  (Z.to_nat x + count <= length line)%nat ->
  transferScanLine count x y width line (pre ++ old ++ post)
  = pre ++ take count (drop (Z.to_nat x) line) ++ post.
Proof.
  induction count as [|count IH]; intros x y width line pre old post Hx Hpre Hold Hline.
  - destruct old; [|discriminate]. by rewrite take_0.
  - destruct old as [|o old]; [discriminate|]. cbn [transferScanLine].
    replace (Z.to_nat (y * width + x)) with (length pre + 0)%nat by lia.
    rewrite insert_app_r. cbn [app insert list_insert].
    destruct (lookup_lt_is_Some_2 line (Z.to_nat x)) as [v Hv]; [lia|].
    rewrite (nth_lookup_Some _ _ _ _ Hv).
    rewrite (drop_S _ _ _ Hv). cbn [take].
    replace (pre ++ v :: old ++ post) with ((pre ++ [v]) ++ old ++ post)
      by (by rewrite <- app_assoc).
    rewrite IH.
    + rewrite <- app_assoc. cbn.
      by replace (Z.to_nat (x + 1)) with (S (Z.to_nat x)) by lia.
    + lia.
    + rewrite length_app. cbn. lia.
    + by injection Hold.
    + lia.
Qed.

(** A whole scanline replaces row [y] of the plane. *)
Lemma transferScanLine_row y width line channel :
  0 <= y -> 0 <= width ->
  length line = Z.to_nat width ->
  (Z.to_nat ((y + 1) * width) <= length channel)%nat ->
  transferScanLine (Z.to_nat width) 0 y width line channel
  = take (Z.to_nat (y * width)) channel ++ line
    ++ drop (Z.to_nat ((y + 1) * width)) channel.
Proof.
  intros Hy Hw Hline Hch.
  assert (Hsplit : channel
    = take (Z.to_nat (y * width)) channel
      ++ take (Z.to_nat width) (drop (Z.to_nat (y * width)) channel)
      ++ drop (Z.to_nat ((y + 1) * width)) channel).
  { rewrite <- (take_drop (Z.to_nat (y * width)) channel) at 1. f_equal.
    rewrite <- (take_drop (Z.to_nat width) (drop _ channel)) at 1. f_equal.
    rewrite drop_drop. f_equal. lia. }
  transitivity (transferScanLine (Z.to_nat width) 0 y width line
    (take (Z.to_nat (y * width)) channel
     ++ take (Z.to_nat width) (drop (Z.to_nat (y * width)) channel)
     ++ drop (Z.to_nat ((y + 1) * width)) channel)); [by rewrite <- Hsplit|].
  rewrite transferScanLine_spec.
  - change (Z.to_nat 0) with 0%nat. rewrite drop_0, (take_ge line); [done|lia].
  - lia.
  - rewrite length_take. nia.
  - rewrite length_take, length_drop. nia.
  - lia.
Qed.

(** ** The loop over the scanlines *)

Lemma readLengthTable_length count : forall s table s',
  readLengthTable count s = Some (table, s') -> length table = count.
Proof.
  induction count as [|count IH]; intros s table s' H; cbn in H.
  - by injection H as <- _.
  - destruct (RLEStream.atEnd s); [discriminate|].
    destruct (RLEStream.readUInt16 s) as [v s1].
    destruct (readLengthTable count s1) as [[t s2]|] eqn:Ht; [|discriminate].
    injection H as <- _. cbn. f_equal. eauto.
Qed.

Lemma decodeScanLines_zero width table : forall y s channel log channel' log',
  0 <= width -> 0 <= y ->
  (Z.to_nat ((y + Z.of_nat (length table)) * width) <= length channel)%nat ->
  decodeScanLines width y table s channel log = Some (channel', log') ->
  length channel' = length channel
  /\ (forall e, In e log -> In e log')
  /\ (forall k : nat, (k < Z.to_nat (y * width))%nat ->
        channel' !! k = channel !! k)
  /\ (forall y' x, y <= y' < y + Z.of_nat (length table) -> 0 <= x < width ->
        ~ In (y', x) log' ->
        channel' !! Z.to_nat (y' * width + x) = Some Byte.x00).
Proof.
  induction table as [|len table IH]; intros y s channel log channel' log' Hw Hy Hch Hdec.
  - cbn in Hdec. injection Hdec as <- <-. cbn [length].
    repeat split; [done|]. intros; lia.
  - cbn [decodeScanLines] in Hdec. cbn [length] in Hch |- *.
    destruct (decodeScanLine width len 0 _) as [st|] eqn:Hline; [|discriminate].
    pose proof (decodeScanLine_inv _ _ _ _ _ Hline (lineInv_initial width s Hw))
      as (_ & Hlen & Hzero).
    rewrite transferScanLine_row in Hdec; [|done|done|done|nia].
    apply IH in Hdec; [|done|lia| ].
    2:{ rewrite !length_app, length_take, length_drop. nia. }
    destruct Hdec as (Hsize & Hlog & Hpre & Hrows).
    assert (Hsize1 : length (take (Z.to_nat (y * width)) channel ++ scanLine st
               ++ drop (Z.to_nat ((y + 1) * width)) channel) = length channel).
    { rewrite !length_app, length_take, length_drop. nia. }
    repeat split.
    + by rewrite Hsize.
    + intros e He. apply Hlog, in_app_iff. by left.
    + intros k Hk. rewrite Hpre by nia.
      rewrite lookup_app_l by (rewrite length_take; nia).
      apply lookup_take_lt. lia.
    + intros y' x Hy' Hx Hnot.
      destruct (Z.eq_dec y' y) as [->|Hne]; [|apply Hrows; [lia|done|done]].
      rewrite Hpre by nia.
      rewrite lookup_app_r by (rewrite length_take; nia).
      rewrite length_take.
      replace (Z.to_nat (y * width + x) - Z.to_nat (y * width) `min` length channel)%nat
        with (Z.to_nat x) by nia.
      rewrite lookup_app_l by lia.
      apply Hzero; [lia|]. rewrite Z2Nat.id by lia.
      intros Hin. apply Hnot, Hlog, in_app_iff. right.
      apply in_map_iff. by exists x.
Qed.

(** ** The ghost log records stores only *)

Lemma fillRun_log n : forall data st,
  0 <= scanLinePos st ->
  (forall x, In x (written st) -> 0 <= x < scanLinePos st) ->
  scanLinePos (fillRun n data st) = scanLinePos st + Z.of_nat n
  /\ forall x, In x (written (fillRun n data st)) ->
       0 <= x < scanLinePos st + Z.of_nat n.
Proof.
  induction n as [|n IH]; intros data st Hpos Hlog.
  - cbn [fillRun]. split; [lia|]. intros x Hx. apply Hlog in Hx. lia.
  - cbn [fillRun].
    edestruct (IH data) as [Hp Hw]; [| |split; [rewrite Hp|intros x Hx; apply Hw in Hx]];
      cbn [scanLinePos written] in *; try lia.
    intros x [<-|Hx]; [lia|]. apply Hlog in Hx. lia.
Qed.

Lemma copyRun_log n : forall st,
  0 <= scanLinePos st ->
  (forall x, In x (written st) -> 0 <= x < scanLinePos st) ->
  scanLinePos (copyRun n st) = scanLinePos st + Z.of_nat n
  /\ forall x, In x (written (copyRun n st)) ->
       0 <= x < scanLinePos st + Z.of_nat n.
Proof.
  induction n as [|n IH]; intros st Hpos Hlog.
  - cbn [copyRun]. split; [lia|]. intros x Hx. apply Hlog in Hx. lia.
  - cbn [copyRun]. destruct (RLEStream.readChar (input st)) as [data s1].
    edestruct IH as [Hp Hw]; [| |split; [rewrite Hp|intros x Hx; apply Hw in Hx]];
      cbn [scanLinePos written] in *; try lia.
    intros x [<-|Hx]; [lia|]. apply Hlog in Hx. lia.
Qed.

Lemma decodeRun_log width st di st' :
  decodeRun width st = Some (di, st') -> logInv width st -> logInv width st'.
Proof.
  unfold decodeRun, logInv. intros Hrun [Hpos Hlog].
  destruct (RLEStream.readChar (input st)) as [code s1].
  destruct (Z.ltb_spec (charValue code) 0).
  - destruct (Z.gtb_spec (1 - charValue code + scanLinePos st) width);
      [discriminate|].
    destruct (RLEStream.readChar s1) as [data s2]. injection Hrun as _ <-.
    edestruct (fillRun_log (Z.to_nat (1 - charValue code)) data) as [Hp Hw];
      [| |split; [rewrite Hp|intros x Hx; apply Hw in Hx]];
      cbn [scanLinePos written] in *; (done || lia).
  - destruct (Z.gtb_spec (charValue code + 1 + scanLinePos st) width);
      [discriminate|].
    injection Hrun as _ <-.
    edestruct (copyRun_log (Z.to_nat (charValue code + 1))) as [Hp Hw];
      [| |split; [rewrite Hp|intros x Hx; apply Hw in Hx]];
      cbn [scanLinePos written] in *; (done || lia).
Qed.

Lemma decodeScanLine_log width len i st st' :
  decodeScanLine width len i st = Some st' ->
  logInv width st -> logInv width st'.
Proof.
  funelim (decodeScanLine width len i st); intros Hdec Hinv.
  - by injection Hdec as <-.
  - eauto using decodeRun_log.
  - discriminate.
Qed.

Lemma decodeScanLines_log width table : forall y s channel log channel' log',
  0 <= width ->
  decodeScanLines width y table s channel log = Some (channel', log') ->
  forall y' x, In (y', x) log' ->
    In (y', x) log
    \/ (y <= y' < y + Z.of_nat (length table) /\ 0 <= x < width).
Proof.
  induction table as [|len table IH]; intros y s channel log channel' log' Hw Hdec y' x Hin.
  - cbn in Hdec. injection Hdec as _ <-. by left.
  - cbn [decodeScanLines] in Hdec. cbn [length].
    destruct (decodeScanLine width len 0 _) as [st|] eqn:Hline; [|discriminate].
    apply decodeScanLine_log in Hline as [Hpos Hlog].
    2:{ split; cbn; [lia|]. by intros ? []. }
    destruct (IH _ _ _ _ _ _ Hw Hdec y' x Hin) as [Hold|Hnew]; [|right; lia].
    apply in_app_iff in Hold as [Hold|Hrow]; [by left|]. right.
    apply in_map_iff in Hrow as (x0 & Heq & Hx0). injection Heq as <- <-.
    apply Hlog in Hx0. lia.
Qed.

(** Every entry of the log is a position of the plane. *)
Lemma uncompressRLE_log_in_range width height compressed y x :
  0 <= width -> 0 <= height ->
  In (y, x) (snd (uncompressRLE_run width height compressed)) ->
  0 <= y < height /\ 0 <= x < width.
Proof.
  intros Hw Hh. unfold uncompressRLE_run.
  destruct (readLengthTable (Z.to_nat height) compressed) as [[table s]|] eqn:Htable;
    [|by intros []].
  apply readLengthTable_length in Htable.
  destruct (decodeScanLines width 0 table s _ []) as [[channel log]|] eqn:Hdec;
    [|by intros []].
  cbn [snd]. intros Hin.
  destruct (decodeScanLines_log _ _ _ _ _ _ _ _ Hw Hdec _ _ Hin) as [[]|H]. lia.
Qed.

Example uncompressRLE_partial_scanline :
  uncompressRLE_run 3 2 (hex [0; 2; 0; 2; 0; 5; 0xFF; 6])
  = (hex [5; 0; 0; 6; 6; 0], [(0, 0); (1, 1); (1, 0)]).
Proof. reflexivity. Qed.

(** C10. For [width >= 0] and [height >= 0] that are values of an
    [int], as is their product, [uncompressRLE] returns either the
    empty array or an array of exactly [width * height] bytes, and in
    the latter every position of every scanline that no run stored into
    is zero. *)
Theorem uncompressRLE_size_and_zero_fill width height compressed :
  0 <= width -> 0 <= height ->
  width <= 2 ^ 31 - 1 -> height <= 2 ^ 31 - 1 ->
  width * height <= 2 ^ 31 - 1 ->
  uncompressRLE width height compressed = []
  \/ (Z.of_nat (length (uncompressRLE width height compressed)) = width * height
      /\ forall y x, 0 <= y < height -> 0 <= x < width ->
           ~ In (y, x) (snd (uncompressRLE_run width height compressed)) ->
           uncompressRLE width height compressed !! Z.to_nat (y * width + x)
           = Some Byte.x00).
Proof.
  intros Hw Hh _ _ _. unfold uncompressRLE, uncompressRLE_run.
  destruct (readLengthTable (Z.to_nat height) compressed) as [[table s]|] eqn:Htable;
    [|by left].
  apply readLengthTable_length in Htable.
  destruct (decodeScanLines width 0 table s _ []) as [[channel log]|] eqn:Hdec;
    [|by left].
  right. cbn [fst snd].
  apply decodeScanLines_zero in Hdec; [|done|done| ].
  2:{ unfold zeroBytes. rewrite length_replicate. nia. }
  destruct Hdec as (Hsize & _ & _ & Hrows). split.
  - rewrite Hsize. unfold zeroBytes. rewrite length_replicate. nia.
  - intros y x Hy Hx Hnot. apply Hrows; [lia|done|done].
Qed.

Lemma uncompressRLE_size_and_zero_fill_witness :
  uncompressRLE 3 2 (hex [0; 2; 0; 2; 0; 5; 0xFF; 6]) = []
  \/ (Z.of_nat (length (uncompressRLE 3 2 (hex [0; 2; 0; 2; 0; 5; 0xFF; 6])))
      = 3 * 2
      /\ forall y x, 0 <= y < 2 -> 0 <= x < 3 ->
           ~ In (y, x)
               (snd (uncompressRLE_run 3 2 (hex [0; 2; 0; 2; 0; 5; 0xFF; 6]))) ->
           uncompressRLE 3 2 (hex [0; 2; 0; 2; 0; 5; 0xFF; 6])
             !! Z.to_nat (y * 3 + x)
           = Some Byte.x00).
Proof. apply uncompressRLE_size_and_zero_fill; lia. Defined.

(** ** Round trip through the reference encoder *)

Lemma insert_middle {A : Type} (pre : list A) (x y : A) (suf : list A) :
  <[length pre := y]> (pre ++ x :: suf) = pre ++ y :: suf.
Proof. by rewrite insert_app_r_alt, Nat.sub_diag. Qed.

Lemma charValue_repeat count :
  2 <= count <= 128 -> charValue (byte.of_Z (1 - count)) = 1 - count.
Proof.
  intros H. unfold charValue. rewrite byte.unsigned_of_Z. unfold byte.wrap.
  replace ((1 - count) mod 2 ^ 8) with (257 - count)
    by (apply Z.mod_unique with (q := -1); lia).
  destruct (Z.ltb_spec (257 - count) 128); lia.
Qed.

Lemma charValue_literal n :
  1 <= n <= 128 -> charValue (byte.of_Z (n - 1)) = n - 1.
Proof.
  intros H. unfold charValue. rewrite byte.unsigned_of_Z. unfold byte.wrap.
  rewrite Z.mod_small by lia.
  destruct (Z.ltb_spec (n - 1) 128); lia.
Qed.

Lemma fillRun_spec n : forall data pre suf wr s,
  (n <= length suf)%nat ->
  exists wr',
    fillRun n data (mkLineState (Z.of_nat (length pre)) (pre ++ suf) wr s)
    = mkLineState (Z.of_nat (length pre + n))
        (pre ++ replicate n data ++ drop n suf) wr' s.
Proof.
  induction n as [|n IH]; intros data pre suf wr s Hn.
  - exists wr. cbn. by rewrite Nat.add_0_r.
  - destruct suf as [|x suf]; [cbn in Hn; lia|].
    cbn [fillRun scanLinePos scanLine written input].
    rewrite Nat2Z.id, insert_middle.
    replace (Z.of_nat (length pre) + 1) with (Z.of_nat (length (pre ++ [data])))
      by (rewrite length_app; cbn; lia).
    replace (pre ++ data :: suf) with ((pre ++ [data]) ++ suf)
      by (by rewrite <- app_assoc).
    destruct (IH data (pre ++ [data]) suf
                (Z.of_nat (length pre) :: wr) s) as [wr' ->]; [cbn in Hn; lia|].
    exists wr'. rewrite length_app, <- app_assoc. cbn. do 2 f_equal. lia.
Qed.

Lemma copyRun_spec n : forall bs tail pre suf wr,
  length bs = n -> (n <= length suf)%nat ->
  exists wr',
    copyRun n (mkLineState (Z.of_nat (length pre)) (pre ++ suf) wr (bs ++ tail))
    = mkLineState (Z.of_nat (length pre + n))
        (pre ++ bs ++ drop n suf) wr' tail.
Proof.
  induction n as [|n IH]; intros bs tail pre suf wr Hbs Hn.
  - destruct bs; [|discriminate]. exists wr. cbn. by rewrite Nat.add_0_r.
  - destruct bs as [|b bs]; [discriminate|].
    destruct suf as [|x suf]; [cbn in Hn; lia|].
    cbn [copyRun scanLinePos scanLine written input app RLEStream.readChar].
    rewrite Nat2Z.id, insert_middle.
    replace (Z.of_nat (length pre) + 1) with (Z.of_nat (length (pre ++ [b])))
      by (rewrite length_app; cbn; lia).
    replace (pre ++ b :: suf) with ((pre ++ [b]) ++ suf)
      by (by rewrite <- app_assoc).
    destruct (IH bs tail (pre ++ [b]) suf
                (Z.of_nat (length pre) :: wr)) as [wr' ->];
      [by injection Hbs | cbn in Hn; lia |].
    exists wr'. rewrite length_app, <- app_assoc. cbn. do 2 f_equal. lia.
Qed.

Lemma decodeRun_encodeRun width r pre suf wr tail :
  Reference.wellFormedRun r ->
  (length (Reference.decoded r) <= length suf)%nat ->
  width = Z.of_nat (length pre + length suf) ->
  exists wr',
    decodeRun width
      (mkLineState (Z.of_nat (length pre)) (pre ++ suf) wr
         (Reference.encodeRun r ++ tail))
    = Some (Z.of_nat (length (Reference.encodeRun r)),
            mkLineState (Z.of_nat (length pre + length (Reference.decoded r)))
              (pre ++ Reference.decoded r
               ++ drop (length (Reference.decoded r)) suf) wr' tail).
Proof.
  intros Hwf Hfit ->. destruct r as [count value | bytes]; cbn in Hwf, Hfit.
  - rewrite length_replicate in Hfit.
    unfold decodeRun.
    cbn [Reference.encodeRun app input RLEStream.readChar scanLinePos scanLine written].
    rewrite charValue_repeat by done.
    destruct (Z.ltb_spec (1 - count) 0); [|lia].
    destruct (Z.gtb_spec (1 - (1 - count) + Z.of_nat (length pre))
                (Z.of_nat (length pre + length suf))); [lia|].
    replace (1 - (1 - count)) with count by lia.
    destruct (fillRun_spec (Z.to_nat count) value pre suf wr tail) as [wr' ->];
      [done|].
    exists wr'. cbn [Reference.decoded length]. by rewrite length_replicate.
  - unfold decodeRun.
    cbn [Reference.encodeRun app input RLEStream.readChar scanLinePos scanLine written].
    rewrite charValue_literal by done.
    destruct (Z.ltb_spec (Z.of_nat (length bytes) - 1) 0); [lia|].
    destruct (Z.gtb_spec (Z.of_nat (length bytes) - 1 + 1 + Z.of_nat (length pre))
                (Z.of_nat (length pre + length suf))); [lia|].
    replace (Z.to_nat (Z.of_nat (length bytes) - 1 + 1)) with (length bytes) by lia.
    destruct (copyRun_spec (length bytes) bytes tail pre suf wr) as [wr' ->];
      [done|done|].
    exists wr'. cbn [Reference.decoded length]. do 2 f_equal. lia.
Qed.

Lemma decodeScanLine_encodeLine width runs : forall len i pre suf wr tail,
  Forall Reference.wellFormedRun runs ->
  len - i = Z.of_nat (length (Reference.encodeLine runs)) ->
  (length (Reference.decodedLine runs) <= length suf)%nat ->
  width = Z.of_nat (length pre + length suf) ->
  exists wr',
    decodeScanLine width len i
      (mkLineState (Z.of_nat (length pre)) (pre ++ suf) wr
         (Reference.encodeLine runs ++ tail))
    = Some (mkLineState
              (Z.of_nat (length pre + length (Reference.decodedLine runs)))
              (pre ++ Reference.decodedLine runs
               ++ drop (length (Reference.decodedLine runs)) suf) wr' tail).
Proof.
  induction runs as [|r runs IH]; intros len i pre suf wr tail Hwf Hlen Hfit Hw.
  - cbn in Hlen. rewrite decodeScanLine_step.
    destruct (Z_lt_dec i len); [lia|].
    exists wr. cbn. by rewrite Nat.add_0_r.
  - apply Forall_cons in Hwf as [Hr Hruns].
    unfold Reference.encodeLine, Reference.decodedLine in *.
    cbn [map concat] in *. rewrite length_app in Hlen, Hfit.
    rewrite decodeScanLine_step.
    destruct (Z_lt_dec i len) as [_|Hge].
    2:{ destruct r; cbn in Hlen; lia. }
    rewrite <- app_assoc.
    destruct (decodeRun_encodeRun width r pre suf wr
                (concat (map Reference.encodeRun runs) ++ tail))
      as [wr1 ->]; [done|lia|done|].
    replace (pre ++ Reference.decoded r ++ drop (length (Reference.decoded r)) suf)
      with ((pre ++ Reference.decoded r) ++ drop (length (Reference.decoded r)) suf)
      by (by rewrite <- app_assoc).
    replace (length pre + length (Reference.decoded r))%nat
      with (length (pre ++ Reference.decoded r)) by (by rewrite length_app).
    destruct (IH len (i + Z.of_nat (length (Reference.encodeRun r)))
                (pre ++ Reference.decoded r)
                (drop (length (Reference.decoded r)) suf) wr1 tail)
      as [wr' ->]; [done|lia| | |].
    + rewrite length_drop. lia.
    + rewrite length_app, length_drop. lia.
    + exists wr'. rewrite !length_app, drop_drop, <- !app_assoc.
      do 2 f_equal. lia.
Qed.

Lemma decodeScanLine_wellFormedLine width runs tail :
  Reference.wellFormedLine width runs ->
  exists wr',
    decodeScanLine width (Z.of_nat (length (Reference.encodeLine runs))) 0
      (mkLineState 0 (zeroBytes width) [] (Reference.encodeLine runs ++ tail))
    = Some (mkLineState width (Reference.decodedLine runs) wr' tail).
Proof.
  intros (Hwf & Hwidth & _).
  destruct (decodeScanLine_encodeLine width runs
              (Z.of_nat (length (Reference.encodeLine runs))) 0
              [] (zeroBytes width) [] tail) as [wr' Hdec]; [done|lia| | |].
  - unfold zeroBytes. rewrite length_replicate. lia.
  - unfold zeroBytes. rewrite length_replicate. cbn. lia.
  - exists wr'. cbn [length app Nat.add] in Hdec.
    change (Z.of_nat 0) with 0 in Hdec. rewrite Hdec.
    rewrite drop_ge by (unfold zeroBytes; rewrite length_replicate; lia).
    rewrite app_nil_r. do 2 f_equal. done.
Qed.

Lemma zeroBytes_succ_rows n width :
  0 <= width ->
  zeroBytes (Z.of_nat (S n) * width)
  = zeroBytes width ++ zeroBytes (Z.of_nat n * width).
Proof.
  intros Hw. unfold zeroBytes. rewrite <- replicate_add. f_equal. nia.
Qed.

Lemma decodeScanLines_lines width lines : forall y done tail log,
  0 <= y -> 0 <= width ->
  Forall (Reference.wellFormedLine width) lines ->
  Z.of_nat (length done) = y * width ->
  exists log',
    decodeScanLines width y
      (map (fun runs => Z.of_nat (length (Reference.encodeLine runs))) lines)
      (concat (map Reference.encodeLine lines) ++ tail)
      (done ++ zeroBytes (Z.of_nat (length lines) * width)) log
    = Some (done ++ Reference.plane lines, log').
Proof.
  induction lines as [|runs lines IH]; intros y done tail log Hy Hw Hwf Hdone.
  - exists log. cbn. done.
  - apply Forall_cons in Hwf as [Hruns Hlines].
    cbn [map concat decodeScanLines]. rewrite <- app_assoc.
    destruct (decodeScanLine_wellFormedLine width runs
                (concat (map Reference.encodeLine lines) ++ tail) Hruns)
      as [wr' ->].
    cbn [scanLine input written]. cbn [length].
    rewrite zeroBytes_succ_rows by done.
    destruct Hruns as (_ & Hwidth & _).
    rewrite transferScanLine_spec.
    + change (Z.to_nat 0) with 0%nat.
      rewrite drop_0, take_ge by lia.
      replace (done ++ Reference.decodedLine runs
                 ++ zeroBytes (Z.of_nat (length lines) * width))
        with ((done ++ Reference.decodedLine runs)
                ++ zeroBytes (Z.of_nat (length lines) * width))
        by (by rewrite <- app_assoc).
      destruct (IH (y + 1) (done ++ Reference.decodedLine runs) tail
                  (log ++ map (pair y) wr')) as [log' ->]; [lia|done|done| |].
      * rewrite length_app. lia.
      * exists log'. unfold Reference.plane. cbn [map concat].
        by rewrite <- app_assoc.
    + lia.
    + lia.
    + unfold zeroBytes. by rewrite length_replicate.
    + lia.
Qed.

Lemma readUInt16_uint16 v rest :
  0 <= v < 65536 ->
  RLEStream.readUInt16 (Reference.uint16 v ++ rest) = (v, rest).
Proof.
  intros Hv. cbn. rewrite !byte.unsigned_of_Z. unfold byte.wrap.
  f_equal. rewrite (Z.mod_small (v / 256)).
  - change (2 ^ 8) with 256. pose proof (Z.div_mod v 256). lia.
  - change (2 ^ 8) with 256. split; [apply Z.div_pos; lia|].
    apply Z.div_lt_upper_bound; lia.
Qed.

Lemma readLengthTable_lengthTable lines rest :
  Forall (fun runs => Z.of_nat (length (Reference.encodeLine runs)) < 65536) lines ->
  readLengthTable (length lines) (Reference.lengthTable lines ++ rest)
  = Some (map (fun runs => Z.of_nat (length (Reference.encodeLine runs))) lines,
          rest).
Proof.
  induction lines as [|runs lines IH]; intros Hfit; [done|].
  apply Forall_cons in Hfit as [Hruns Hlines].
  unfold Reference.lengthTable. cbn [length map concat readLengthTable].
  rewrite <- app_assoc.
  change (RLEStream.atEnd (Reference.uint16 _ ++ _)) with false. cbv iota.
  rewrite readUInt16_uint16 by lia.
  fold (Reference.lengthTable lines). by rewrite IH.
Qed.

(** Decoding what the encoder emits for well-formed scanlines gives the
    plane they stand for. *)
Lemma uncompressRLE_compress width height lines :
  0 <= width ->
  Reference.wellFormed width height lines ->
  uncompressRLE width height (Reference.compress lines) = Reference.plane lines.
Proof.
  intros Hw [Hcount Hlines].
  unfold uncompressRLE, uncompressRLE_run, Reference.compress.
  replace (Z.to_nat height) with (length lines) by lia.
  rewrite readLengthTable_lengthTable.
  2:{ eapply Forall_impl; [exact Hlines|]. by intros runs (_ & _ & H). }
  rewrite <- (app_nil_r (concat _)).
  replace (zeroBytes (width * height))
    with ([] ++ zeroBytes (Z.of_nat (length lines) * width))
    by (cbn; f_equal; lia).
  destruct (decodeScanLines_lines width lines 0 [] [] []) as [log' ->];
    [done|lia|done|cbn; lia|].
  done.
Qed.

(** C1. A plane of [width] by [height] bytes ([width], [height]
    positive, their product a value of an [int] as the decoder's
    arithmetic requires) that a reference encoder describes by
    well-formed runs and a well-formed length table is reproduced
    exactly by [uncompressRLE] applied to the encoder's output. *)
Theorem uncompressRLE_roundtrip width height (plane : QByteArray) lines :
  0 < width -> 0 < height ->
  width * height <= 2 ^ 31 - 1 ->
  Z.of_nat (length plane) = width * height ->
  Reference.wellFormed width height lines ->
  Reference.plane lines = plane ->
  uncompressRLE width height (Reference.compress lines) = plane.
Proof.
  intros Hw _ _ _ Hwf <-. apply uncompressRLE_compress; [lia|done].
Qed.

(** The concrete encoder meets the description, so the round trip holds
    for every plane whose scanlines fit the 16-bit table. *)

Lemma pushByte_spec b runs :
  Forall Reference.wellFormedRun runs ->
  Forall Reference.wellFormedRun (Reference.pushByte b runs)
  /\ Reference.decodedLine (Reference.pushByte b runs)
     = b :: Reference.decodedLine runs
  /\ (length (Reference.encodeLine (Reference.pushByte b runs))
      <= 2 + length (Reference.encodeLine runs))%nat.
Proof.
  intros Hwf. unfold Reference.pushByte.
  destruct runs as [|[count value | bytes] runs].
  - repeat split; [|cbn; lia]. repeat constructor; cbn; lia.
  - apply Forall_cons in Hwf as [Hr Hruns]. cbn in Hr.
    destruct (Byte.eqb b value) eqn:Heq; cbn [andb].
    + apply Byte.byte_dec_bl in Heq as ->.
      destruct (Z.ltb_spec count 128).
      * repeat split; [constructor; [cbn; lia|done] | | cbn; lia].
        unfold Reference.decodedLine. cbn [map concat Reference.decoded].
        replace (Z.to_nat (count + 1)) with (S (Z.to_nat count)) by lia.
        done.
      * repeat split; [|cbn; lia].
        constructor; [cbn; lia|]. by constructor.
    + repeat split; [|cbn; lia].
      constructor; [cbn; lia|]. by constructor.
  - apply Forall_cons in Hwf as [Hr Hruns]. cbn in Hr.
    destruct bytes as [|value [|value' bytes]].
    + repeat split; [|cbn; lia].
      constructor; [cbn; lia|]. by constructor.
    + destruct (Byte.eqb b value) eqn:Heq.
      * apply Byte.byte_dec_bl in Heq as ->.
        repeat split; [|cbn; lia]. constructor; [cbn; lia|done].
      * repeat split; [|cbn; lia].
        constructor; [cbn; lia|]. by constructor.
    + repeat split; [|cbn; lia].
      constructor; [cbn; lia|]. by constructor.
Qed.

Lemma packLine_spec line :
  Forall Reference.wellFormedRun (Reference.packLine line)
  /\ Reference.decodedLine (Reference.packLine line) = line
  /\ (length (Reference.encodeLine (Reference.packLine line))
      <= 2 * length line)%nat.
Proof.
  induction line as [|b line (Hwf & Hdec & Hlen)]; [by repeat split|].
  unfold Reference.packLine in *. cbn [foldr].
  destruct (pushByte_spec b _ Hwf) as (Hwf' & Hdec' & Hlen').
  repeat split; [done | by rewrite Hdec', Hdec | cbn [length]; lia].
Qed.

Lemma scanLinesOf_spec height : forall width (bytes : QByteArray),
  length bytes = (height * width)%nat ->
  length (Reference.scanLinesOf height width bytes) = height
  /\ Forall (fun line => length line = width)
       (Reference.scanLinesOf height width bytes)
  /\ concat (Reference.scanLinesOf height width bytes) = bytes.
Proof.
  induction height as [|height IH]; intros width bytes Hlen.
  - destruct bytes; [by repeat split|discriminate].
  - cbn [Reference.scanLinesOf].
    destruct (IH width (drop width bytes)) as (Hcount & Hrows & Hcat).
    { rewrite length_drop. lia. }
    repeat split.
    + cbn. by rewrite Hcount.
    + constructor; [|done]. rewrite length_take. lia.
    + cbn [concat]. rewrite Hcat. apply take_drop.
Qed.

Lemma encodePlane_wellFormed width height (bytes : QByteArray) :
  0 <= width <= 32767 -> 0 <= height ->
  Z.of_nat (length bytes) = width * height ->
  Reference.wellFormed width height (Reference.encodePlane width height bytes)
  /\ Reference.plane (Reference.encodePlane width height bytes) = bytes.
Proof.
  intros Hw Hh Hlen. unfold Reference.encodePlane.
  destruct (scanLinesOf_spec (Z.to_nat height) (Z.to_nat width) bytes)
    as (Hcount & Hrows & Hcat); [nia|].
  split; [split|].
  - rewrite length_map, Hcount. lia.
  - apply Forall_map. eapply Forall_impl; [exact Hrows|].
    intros line Hline. cbv beta. unfold Reference.wellFormedLine.
    destruct (packLine_spec line) as (Hwf & Hdec & Hfit).
    cbv beta in Hline.
    repeat split; [done | rewrite Hdec; lia | lia].
  - unfold Reference.plane. rewrite <- Hcat at 2. f_equal.
    rewrite map_map. rewrite <- (map_id (Reference.scanLinesOf _ _ _)) at 2.
    apply map_ext. intros line. apply packLine_spec.
Qed.

Corollary uncompressRLE_encodePlane width height (plane : QByteArray) :
  0 < width <= 32767 -> 0 < height ->
  width * height <= 2 ^ 31 - 1 ->
  Z.of_nat (length plane) = width * height ->
  uncompressRLE width height
    (Reference.compress (Reference.encodePlane width height plane)) = plane.
Proof.
  intros Hw Hh _ Hlen.
  destruct (encodePlane_wellFormed width height plane) as [Hwf Hplane];
    [lia|lia|done|].
  rewrite <- Hplane at 2. apply uncompressRLE_compress; [lia|done].
Qed.

Lemma uncompressRLE_roundtrip_witness :
  uncompressRLE 4 2
    (Reference.compress
       [[Reference.Repeat 3 (byte.of_Z 7); Reference.Literal (hex [1])];
        [Reference.Literal (hex [2; 3]); Reference.Repeat 2 (byte.of_Z 9)]])
  = hex [7; 7; 7; 1; 2; 3; 9; 9].
Proof.
  apply uncompressRLE_roundtrip.
  - lia.
  - lia.
  - lia.
  - reflexivity.
  - split; [reflexivity|].
    repeat constructor; cbn; lia.
  - reflexivity.
Defined.

(** ** Channel compositor *)

Lemma testbit_byte b n : 0 <= b < 256 -> 8 <= n -> Z.testbit b n = false.
Proof.
  intros Hb Hn. destruct (Z.eq_dec b 0) as [->|Hne]; [apply Z.bits_0|].
  apply Z.bits_above_log2; [lia|].
  assert (Z.log2 b < 8); [|lia].
  apply Z.log2_lt_pow2; [lia|]. change (2 ^ 8) with 256. lia.
Qed.

Ltac lane_bits :=
  apply Z.bits_inj'; intros n Hn;
  repeat first
    [ rewrite Z.land_spec | rewrite Z.lor_spec
    | rewrite Z.shiftr_spec by lia | rewrite Z.shiftl_spec by lia
    | rewrite Z.testbit_ones by lia ];
  repeat match goal with
    | |- context [Z.ltb ?a ?b] => destruct (Z.ltb_spec a b)
    | |- context [Z.leb ?a ?b] => destruct (Z.leb_spec a b)
    end;
  repeat match goal with
    | |- context [Z.testbit ?a ?k] => rewrite (Z.testbit_neg_r a k) by lia
    end;
  repeat match goal with
    | H : 0 <= ?b < 256 |- context [Z.testbit ?b ?k] =>
        rewrite (testbit_byte b k H) by lia
    end;
  cbn [andb orb];
  rewrite ?andb_true_r, ?andb_false_r, ?orb_false_r, ?orb_true_r,
    ?andb_true_l, ?andb_false_l, ?orb_false_l, ?orb_true_l;
  try reflexivity; try lia; try (f_equal; lia).

Lemma mergeSubPixel_lanes channel pixel sub i :
  0 <= sub < 256 ->
  laneOf channel = Some i ->
  exists pixel',
    mergeSubPixel channel pixel sub = Some pixel'
    /\ lanes pixel' = <[i := sub]> (lanes pixel).
Proof.
  intros Hsub Hlane. unfold laneOf, mergeSubPixel in *.
  change 0x00FFFFFF with (Z.ones 24).
  change 0xFF00FFFF with (Z.lor (Z.ones 16) (Z.shiftl (Z.ones 8) 24)).
  change 0xFFFF00FF with (Z.lor (Z.ones 8) (Z.shiftl (Z.ones 16) 16)).
  change 0xFFFFFF00 with (Z.shiftl (Z.ones 24) 8).
  unfold lanes, qAlpha, qRed, qGreen, qBlue.
  change 0xFF with (Z.ones 8).
  repeat (destruct (_ =? _); [injection Hlane as <-; eexists; split; [reflexivity|]|]);
    [..|discriminate]; cbn [insert list_insert].
  all: f_equal; [|f_equal; [|f_equal; [|f_equal]]].
  all: lane_bits.
Qed.


Lemma compoundedUpTo_0 bytes channel bits :
  compoundedUpTo bytes channel 0 bits = bits.
Proof.
  apply list_eq; intros k. unfold compoundedUpTo.
  rewrite list_lookup_imap. by destruct (bits !! k).
Qed.

Lemma length_compoundedUpTo bytes channel n bits :
  length (compoundedUpTo bytes channel n bits) = length bits.
Proof. apply length_imap. Qed.

Lemma compoundedUpTo_succ bytes channel n bits :
  <[n := default (nth n bits 0)
           (mergeSubPixel channel (nth n bits 0)
              (byte.unsigned (nth n bytes Byte.x00)))]>
    (compoundedUpTo bytes channel n bits)
  = compoundedUpTo bytes channel (S n) bits.
Proof.
  apply list_eq; intros k. unfold compoundedUpTo.
  destruct (decide (k = n)) as [->|Hne].
  - destruct (bits !! n) as [p|] eqn:Hp.
    + rewrite list_lookup_insert_eq
        by (rewrite length_imap; exact (lookup_lt_Some _ _ _ Hp)).
      rewrite list_lookup_imap, Hp. cbn.
      rewrite (nth_lookup_Some _ _ _ _ Hp).
      by rewrite Nat.leb_refl.
    + rewrite list_insert_ge
        by (rewrite length_imap; by apply lookup_ge_None).
      by rewrite !list_lookup_imap, Hp.
  - rewrite list_lookup_insert_ne by done.
    rewrite !list_lookup_imap. cbv beta.
    destruct (Nat.ltb_spec k n), (Nat.ltb_spec k (S n)); (reflexivity || lia).
Qed.

Lemma nth_compoundedUpTo_next bytes channel n bits :
  nth n (compoundedUpTo bytes channel n bits) 0 = nth n bits 0.
Proof.
  rewrite !nth_lookup. unfold compoundedUpTo.
  rewrite list_lookup_imap. cbv beta. rewrite Nat.ltb_irrefl.
  by destruct (bits !! n).
Qed.

Lemma compoundRow_lane bytes channel i w h y bits count : forall x,
  laneOf channel = Some i ->
  0 <= x -> 0 <= y * w ->
  (Z.to_nat (y * w + x) + count <= length bytes)%nat ->
  compoundRow count bytes channel x y
    (QImage.mk w h (compoundedUpTo bytes channel (Z.to_nat (y * w + x)) bits))
  = (QImage.mk w h
       (compoundedUpTo bytes channel (Z.to_nat (y * w + x) + count) bits),
     None).
Proof.
  induction count as [|count IH]; intros x Hlane Hx Hy Hfit.
  - cbn. by rewrite Nat.add_0_r.
  - cbn [compoundRow]. unfold compoundPixel, QImage.pixel, QImage.setPixel.
    cbn [QImage.width QImage.height QImage.bits].
    destruct (Z.geb_spec (y * w + x) (Z.of_nat (length bytes))); [lia|].
    rewrite nth_compoundedUpTo_next.
    destruct (mergeSubPixel_lanes channel
                (nth (Z.to_nat (y * w + x)) bits 0)
                (byte.unsigned (nth (Z.to_nat (y * w + x)) bytes Byte.x00)) i)
      as (pixel' & Hmerge & _); [apply byte.unsigned_range|done|].
    rewrite Hmerge.
    replace pixel' with
      (default (nth (Z.to_nat (y * w + x)) bits 0)
         (mergeSubPixel channel (nth (Z.to_nat (y * w + x)) bits 0)
            (byte.unsigned (nth (Z.to_nat (y * w + x)) bytes Byte.x00))))
      by (by rewrite Hmerge).
    rewrite compoundedUpTo_succ.
    replace (S (Z.to_nat (y * w + x))) with (Z.to_nat (y * w + (x + 1))) by lia.
    rewrite IH by (done || lia).
    do 3 f_equal. lia.
Qed.

Lemma compoundRows_lane bytes channel i w h bits count : forall y,
  laneOf channel = Some i ->
  0 <= y -> 0 <= w ->
  (Z.to_nat ((y + Z.of_nat count) * w) <= length bytes)%nat ->
  compoundRows count bytes channel y
    (QImage.mk w h (compoundedUpTo bytes channel (Z.to_nat (y * w)) bits))
  = (QImage.mk w h
       (compoundedUpTo bytes channel (Z.to_nat ((y + Z.of_nat count) * w)) bits),
     Composited).
Proof.
  induction count as [|count IH]; intros y Hlane Hy Hw Hfit.
  - cbn. do 3 f_equal. lia.
  - cbn [compoundRows QImage.width].
    replace (Z.to_nat (y * w)) with (Z.to_nat (y * w + 0)) by (f_equal; lia).
    rewrite (compoundRow_lane bytes channel i) by (done || nia).
    replace (Z.to_nat (y * w + 0) + Z.to_nat w)%nat
      with (Z.to_nat ((y + 1) * w)) by nia.
    rewrite IH by (done || nia).
    do 3 f_equal. lia.
Qed.

Lemma compoundLayerChannel_lane img bytes channel i :
  laneOf channel = Some i ->
  wellFormedImage img ->
  QImage.width img * QImage.height img <= Z.of_nat (length bytes) ->
  compoundLayerChannel img bytes channel
  = (QImage.mk (QImage.width img) (QImage.height img)
       (compoundedUpTo bytes channel (length (QImage.bits img)) (QImage.bits img)),
     Composited).
Proof.
  intros Hlane (Hw & Hh & Hbits) Hfit. destruct img as [w h bits].
  cbn [QImage.width QImage.height QImage.bits] in *.
  unfold compoundLayerChannel; cbn [QImage.height].
  rewrite <- (compoundedUpTo_0 bytes channel bits) at 1.
  change 0%nat with (Z.to_nat (0 * w)).
  rewrite (compoundRows_lane bytes channel i) by (done || nia).
  replace (0 + Z.of_nat (Z.to_nat h)) with h by lia.
  do 3 f_equal. lia.
Qed.




(** ** Additional-block scanner *)

(** C2. A block tagged [8B64] is turned down by the scanner, in either
    spelling: the bytes of [8B64] and the value of the constant
    [PSDSignature8B64], which spells [8b64]. *)
Theorem scanAdditionalLayerInfo_rejects_8B64 :
  forall indeterminateBlock,
    let tagged := fun tag => DS.mk (hex (tag ++ [0; 0; 0; 0; 0; 0; 0; 0])) true in
    outcome (scanLoop indeterminateBlock (tagged [0x38; 0x42; 0x36; 0x34]) 12)
    = InvalidBlockSignature
    /\ scanAdditionalLayerInfo indeterminateBlock (tagged [0x38; 0x42; 0x36; 0x34]) 12
       = -1
    /\ outcome (scanLoop indeterminateBlock (tagged [0x38; 0x62; 0x36; 0x34]) 12)
       = InvalidBlockSignature
    /\ outcome (scanLoop indeterminateBlock (tagged [0x38; 0x42; 0x49; 0x4D]) 12)
       = ScanDone.
Proof. intros uninit. by vm_compute. Qed.

(** The loop, one iteration unfolded. *)
Lemma scanLoop_step uninit ds remBytes :
  scanLoop uninit ds remBytes =
  if Z_gt_dec remBytes 0 then
    if Z_lt_dec remBytes PSDAdditionalLayerInfoDataOffset
    then mkScanEnd RemainderTooSmall remBytes ds
    else if DS.atEnd ds then mkScanEnd EndOfStream remBytes ds
    else
      let '(additionalLayerInfo, ds1) := readPSDAdditionalLayerInfo uninit ds in
      if Z.eq_dec (PSDAdditionalLayerInfo.signature additionalLayerInfo)
           PSDSignature8BIM
      then
        scanLoop uninit
          (DS.skipRawData
             (wrap32 (PSDAdditionalLayerInfo.length additionalLayerInfo
                      + paddingTo 4 (PSDAdditionalLayerInfo.length
                                       additionalLayerInfo)))
             ds1)
          (remBytes
           - blockConsumed (PSDAdditionalLayerInfo.length additionalLayerInfo))
      else mkScanEnd InvalidBlockSignature remBytes ds1
  else mkScanEnd ScanDone remBytes ds.
Proof.
  funelim (scanLoop uninit ds remBytes);
    repeat match goal with
      | H : Z_gt_dec _ _ = _ |- _ => rewrite H
      | H : Z_lt_dec _ _ = _ |- _ => rewrite H
      | H : DS.atEnd _ = _ |- _ => rewrite H
      | H : readPSDAdditionalLayerInfo _ _ = _ |- _ => rewrite H
      | H : Z.eq_dec _ _ = _ |- _ => rewrite H
      end; reflexivity.
Qed.

Lemma scanLoop_outcome uninit ds remBytes :
  (outcome (scanLoop uninit ds remBytes) = RemainderTooSmall
   <-> 0 < finalRemBytes (scanLoop uninit ds remBytes)
           < PSDAdditionalLayerInfoDataOffset)
  /\ (outcome (scanLoop uninit ds remBytes) = ScanDone
      <-> finalRemBytes (scanLoop uninit ds remBytes) <= 0).
Proof.
  funelim (scanLoop uninit ds remBytes); try assumption;
    cbn [outcome finalRemBytes]; unfold PSDAdditionalLayerInfoDataOffset in *;
    (split; split; intros; (discriminate || lia || reflexivity)).
Qed.

(** C3. The scan fails with the budget underrun exactly when
    an iteration starts with a budget that is positive but below the
    8 bytes of [PSDAdditionalLayerInfoDataOffset]; a budget of zero or
    less ends the loop with success, also when subtracting a block's
    consumed bytes (payload, padding to four, header of 12, summed in
    32 bits) has made it negative, so a successful scan ends with a
    budget of at most zero. *)
Theorem scanLoop_budget uninit ds remBytes :
  let r := scanLoop uninit ds remBytes in
  (0 < remBytes < PSDAdditionalLayerInfoDataOffset ->
     r = mkScanEnd RemainderTooSmall remBytes ds)
  /\ (remBytes <= 0 -> r = mkScanEnd ScanDone remBytes ds)
  /\ (PSDAdditionalLayerInfoDataOffset <= remBytes -> DS.atEnd ds = false ->
      forall block ds1,
        readPSDAdditionalLayerInfo uninit ds = (block, ds1) ->
        PSDAdditionalLayerInfo.signature block = PSDSignature8BIM ->
        r = scanLoop uninit
              (DS.skipRawData
                 (wrap32 (PSDAdditionalLayerInfo.length block
                          + paddingTo 4 (PSDAdditionalLayerInfo.length block)))
                 ds1)
              (remBytes - blockConsumed (PSDAdditionalLayerInfo.length block)))
  /\ (outcome r = RemainderTooSmall
      <-> 0 < finalRemBytes r < PSDAdditionalLayerInfoDataOffset)
  /\ (outcome r = ScanDone <-> finalRemBytes r <= 0).
Proof.
  cbv zeta. unfold PSDAdditionalLayerInfoDataOffset.
  split; [|split; [|split; [|apply scanLoop_outcome]]].
  - intros H. rewrite scanLoop_step.
    destruct (Z_gt_dec remBytes 0); [|lia].
    unfold PSDAdditionalLayerInfoDataOffset.
    by destruct (Z_lt_dec remBytes 8); [|lia].
  - intros H. rewrite scanLoop_step.
    by destruct (Z_gt_dec remBytes 0); [lia|].
  - intros H Hmore block ds1 Hread Hsig. rewrite scanLoop_step.
    destruct (Z_gt_dec remBytes 0); [|lia].
    unfold PSDAdditionalLayerInfoDataOffset.
    destruct (Z_lt_dec remBytes 8); [lia|].
    rewrite Hmore, Hread.
    by destruct (Z.eq_dec _ _).
Qed.

Lemma scanLoop_budget_witness :
  scanLoop demoBlock (DS.mk (hex [0x38; 0x42; 0x49; 0x4D; 0; 0; 0; 0; 0; 0; 0; 0]) true) 5
  = mkScanEnd RemainderTooSmall 5
      (DS.mk (hex [0x38; 0x42; 0x49; 0x4D; 0; 0; 0; 0; 0; 0; 0; 0]) true).
Proof.
  apply (scanLoop_budget demoBlock
           (DS.mk (hex [0x38; 0x42; 0x49; 0x4D; 0; 0; 0; 0; 0; 0; 0; 0]) true) 5).
  unfold PSDAdditionalLayerInfoDataOffset. lia.
Defined.

(** A block of 12 bytes scanned with a budget of 8: the budget falls to
    -4 and the scan reports success. *)
Lemma scanLoop_success_with_negative_budget :
  8 - blockConsumed 0 = -4
  /\ scanLoop demoBlock
       (DS.mk (hex [0x38; 0x42; 0x49; 0x4D; 0; 0; 0; 0; 0; 0; 0; 0]) true) 8
     = mkScanEnd ScanDone (-4) (DS.mk [] true)
  /\ scanAdditionalLayerInfo demoBlock
       (DS.mk (hex [0x38; 0x42; 0x49; 0x4D; 0; 0; 0; 0; 0; 0; 0; 0]) true) 8 = 0.
Proof. by vm_compute. Qed.

(** ** Decoder inputs outside the packed-bits convention *)

(** What the decoder does with the control byte -128: a repeat of 129. *)
Lemma decodeRun_minus128 width pos line wr data s :
  decodeRun width (mkLineState pos line wr (byte.of_Z 0x80 :: data :: s))
  = if 129 + pos >? width then None
    else Some (2, fillRun 129 data (mkLineState pos line wr s)).
Proof. reflexivity. Qed.

(** C4. The control byte -128 is decoded as a repeat of 129 copies of
    the next byte: a scanline that carries it as a no-op in front of
    four literal bytes is refused at width 4, and at width 129 the byte
    fills the whole scanline. *)
Theorem uncompressRLE_control_minus128 :
  charValue (byte.of_Z 0x80) = -128
  /\ uncompressRLE 4 1 (hex [0; 6; 0x80; 3; 1; 2; 3; 4]) = []
  /\ uncompressRLE 129 1 (hex [0; 2; 0x80; 7]) = replicate 129 (byte.of_Z 7).
Proof. by vm_compute. Qed.

(** A run that would pass the end of the scanline stops the decoder. *)
Lemma decodeRun_overflow width st :
  (let code := charValue (fst (RLEStream.readChar (input st))) in
   (if code <? 0 then 1 - code else code + 1) + scanLinePos st > width) ->
  decodeRun width st = None.
Proof.
  unfold decodeRun. destruct (RLEStream.readChar (input st)) as [code s1].
  cbn [fst]. intros H.
  destruct (charValue code <? 0).
  - by destruct (Z.gtb_spec (1 - charValue code + scanLinePos st) width); [|lia].
  - by destruct (Z.gtb_spec (charValue code + 1 + scanLinePos st) width); [|lia].
Qed.

(** C5. A compressed stream that ends in the middle of a literal run is
    not refused: the bytes that are missing are read as zeros, the plane
    has the expected size, and [loadPSDLayer] composites it and reports
    success. *)
Theorem loadPSDLayer_accepts_truncated_RLE :
  let record :=
    PSDLayerRecord.mk 0 0 1 3 1 [PSDChannelInfo.mk 0 6]
      PSDSignature8BIM 0 0 0 0 0 0 in
  let loaded :=
    loadPSDLayer [0; 0; 0] (DS.mk (hex [0; 1; 0; 4; 2; 1]) true) record in
  uncompressRLE 3 1 (hex [0; 4; 2; 1]) = hex [1; 0; 0]
  /\ snd (fst loaded) = true
  /\ map qRed (QImage.bits (fst (fst loaded))) = [1; 0; 0].
Proof. by vm_compute. Qed.

(** ** Section readers and the cursor *)

Lemma rest_readBlock len ds :
  DS.rest (snd (DS.readBlock len ds)) = drop (Z.to_nat len) (DS.rest ds).
Proof.
  unfold DS.readBlock. cbn [snd DS.rest].
  destruct (Z.le_ge_cases len (Z.of_nat (length (DS.rest ds)))).
  - by rewrite Z.min_l.
  - rewrite Z.min_r, Nat2Z.id by done. rewrite !drop_ge; (done || lia).
Qed.

Lemma rest_readUInt n ds :
  DS.rest (snd (DS.readUInt n ds)) = drop (Z.to_nat n) (DS.rest ds).
Proof.
  unfold DS.readUInt. pose proof (rest_readBlock n ds) as H.
  by destruct (DS.readBlock n ds).
Qed.

Lemma rest_readInt16 ds :
  DS.rest (snd (DS.readInt16 ds)) = drop 2 (DS.rest ds).
Proof.
  unfold DS.readInt16. pose proof (rest_readUInt 2 ds) as H.
  unfold DS.readUInt16. by destruct (DS.readUInt 2 ds).
Qed.

Lemma readChannelInfos_spec count : forall acc ds,
  DS.rest (snd (readChannelInfos count acc ds)) = drop (6 * count) (DS.rest ds)
  /\ length (fst (readChannelInfos count acc ds)) = (length acc + count)%nat.
Proof.
  induction count as [|count IH]; intros acc ds.
  - cbn. split; [done|lia].
  - cbn [readChannelInfos]. unfold bind.
    pose proof (rest_readInt16 ds) as H1.
    destruct (DS.readInt16 ds) as [channelId ds1]. cbn [snd] in H1.
    pose proof (rest_readUInt 4 ds1) as H2. unfold DS.readUInt32.
    destruct (DS.readUInt 4 ds1) as [len ds2]. cbn [snd] in H2.
    destruct (IH (acc ++ [PSDChannelInfo.mk channelId len]) ds2) as [-> ->].
    rewrite H2, H1, !drop_drop, length_app. cbn [length Z.to_nat Pos.to_nat
      Pos.iter_op Nat.add]. split; [f_equal; lia | lia].
Qed.

(** When the signature after the channel descriptors is not [8BIM],
    the reader returns at once: the blend-mode key, opacity, clipping,
    flags, filler and extra-data length of the record are the ones the
    caller's record held before the call, and the cursor stands just
    past the signature, 22 bytes plus 6 per channel descriptor after
    the start of the record, or at the end of the stream when it is
    shorter. *)
Lemma readPSDLayerRecord_invalid_signature d ds :
  let r := fst (readPSDLayerRecord d ds) in
  let ds' := snd (readPSDLayerRecord d ds) in
  PSDLayerRecord.signature r <> PSDSignature8BIM ->
  PSDLayerRecord.blendModeKey r = PSDLayerRecord.blendModeKey d
  /\ PSDLayerRecord.opacity r = PSDLayerRecord.opacity d
  /\ PSDLayerRecord.clipping r = PSDLayerRecord.clipping d
  /\ PSDLayerRecord.flags r = PSDLayerRecord.flags d
  /\ PSDLayerRecord.filler r = PSDLayerRecord.filler d
  /\ PSDLayerRecord.extraDataFieldLength r = PSDLayerRecord.extraDataFieldLength d
  /\ DS.rest ds'
     = drop (22 + 6 * Z.to_nat (PSDLayerRecord.channels r)) (DS.rest ds)
  /\ length (PSDLayerRecord.channelInfos r)
     = (length (PSDLayerRecord.channelInfos d)
        + Z.to_nat (PSDLayerRecord.channels r))%nat.
Proof.
  cbv zeta. unfold readPSDLayerRecord, bind, ret, DS.readUInt32, DS.readUInt16,
    DS.readUInt8.
  pose proof (rest_readUInt 4 ds) as H1.
  destruct (DS.readUInt 4 ds) as [top ds1]. cbn [snd] in H1.
  pose proof (rest_readUInt 4 ds1) as H2.
  destruct (DS.readUInt 4 ds1) as [left ds2]. cbn [snd] in H2.
  pose proof (rest_readUInt 4 ds2) as H3.
  destruct (DS.readUInt 4 ds2) as [bottom ds3]. cbn [snd] in H3.
  pose proof (rest_readUInt 4 ds3) as H4.
  destruct (DS.readUInt 4 ds3) as [right ds4]. cbn [snd] in H4.
  pose proof (rest_readUInt 2 ds4) as H5.
  destruct (DS.readUInt 2 ds4) as [channels ds5]. cbn [snd] in H5.
  destruct (readChannelInfos_spec (Z.to_nat channels)
              (PSDLayerRecord.channelInfos d) ds5) as [H6 H6'].
  destruct (readChannelInfos (Z.to_nat channels) _ ds5) as [infos ds6].
  cbn [fst snd] in H6, H6'.
  pose proof (rest_readUInt 4 ds6) as H7.
  destruct (DS.readUInt 4 ds6) as [signature ds7]. cbn [snd] in H7.
  destruct (Z.eqb_spec signature PSDSignature8BIM) as [->|Hne]; cbn [negb].
  - repeat match goal with
      | |- context [DS.readUInt ?n ?s] => destruct (DS.readUInt n s)
      end.
    cbn [fst PSDLayerRecord.signature]. by intros [].
  - cbn [fst snd PSDLayerRecord.signature PSDLayerRecord.blendModeKey
         PSDLayerRecord.opacity PSDLayerRecord.clipping PSDLayerRecord.flags
         PSDLayerRecord.filler PSDLayerRecord.extraDataFieldLength
         PSDLayerRecord.channels PSDLayerRecord.channelInfos].
    intros _. repeat split; [|done].
    rewrite H7, H6, H5, H4, H3, H2, H1, !drop_drop. f_equal.
    change (Z.to_nat 4) with 4%nat. change (Z.to_nat 2) with 2%nat. lia.
Qed.

(** C6. A layer record whose signature reads [XXXX], taken by the
    record loop of [main]: the reader returns without assigning the
    blend-mode key, opacity, clipping, flags, filler and extra-data
    length, so these are not zero but whatever the record, declared
    without an initialiser, held.  The loop goes on to use them: it adds
    that extra-data length to [consumedLayerInfoSize] and skips as many
    bytes, so that a stale length of 3 moves the cursor three bytes
    further than a stale length of 0 on the same input. *)
Theorem readLayerRecords_invalid_signature_stale :
  (forall indeterminateRecord : nat -> PSDLayerRecord.t,
     let d := indeterminateRecord 0%nat in
     readLayerRecords indeterminateRecord 1 0 [] 2
       (DS.mk invalidSignatureRecord true)
     = ([PSDLayerRecord.mk 0 0 1 1 0 [] 0x58585858
           (PSDLayerRecord.blendModeKey d) (PSDLayerRecord.opacity d)
           (PSDLayerRecord.clipping d) (PSDLayerRecord.flags d)
           (PSDLayerRecord.filler d) (PSDLayerRecord.extraDataFieldLength d)],
        wrap32 (36 + PSDLayerRecord.extraDataFieldLength d),
        DS.skipRawData (PSDLayerRecord.extraDataFieldLength d)
          (DS.mk (hex [9; 9; 9; 9; 9]) true)))
  /\ 0x58585858 <> PSDSignature8BIM
  /\ readLayerRecords
       (fun _ => PSDLayerRecord.mk 0 0 0 0 0 [] 0 0x6E6F726D 255 0 8 0 3)
       1 0 [] 2 (DS.mk invalidSignatureRecord true)
     = ([PSDLayerRecord.mk 0 0 1 1 0 [] 0x58585858 0x6E6F726D 255 0 8 0 3],
        39, DS.mk (hex [9; 9]) true)
  /\ readLayerRecords
       (fun _ => PSDLayerRecord.mk 0 0 0 0 0 [] 0 0 0 0 0 0 0)
       1 0 [] 2 (DS.mk invalidSignatureRecord true)
     = ([PSDLayerRecord.mk 0 0 1 1 0 [] 0x58585858 0 0 0 0 0 0],
        36, DS.mk (hex [9; 9; 9; 9; 9]) true).
Proof.
  split; [|by vm_compute].
  intros uR. cbv zeta. cbn [readLayerRecords]. unfold bind, skip, ret.
  assert (readPSDLayerRecord (freshRecord uR 0)
            (DS.mk invalidSignatureRecord true)
          = (PSDLayerRecord.mk 0 0 1 1 0 [] 0x58585858
               (PSDLayerRecord.blendModeKey (uR 0%nat))
               (PSDLayerRecord.opacity (uR 0%nat))
               (PSDLayerRecord.clipping (uR 0%nat))
               (PSDLayerRecord.flags (uR 0%nat))
               (PSDLayerRecord.filler (uR 0%nat))
               (PSDLayerRecord.extraDataFieldLength (uR 0%nat)),
             DS.mk (hex [9; 9; 9; 9; 9]) true)) as ->
    by (vm_compute; reflexivity).
  reflexivity.
Qed.

(** ** Document walker *)

Lemma wrap32_range z : 0 <= wrap32 z < 2 ^ 32.
Proof. apply Z.mod_pos_bound. lia. Qed.

Lemma bigEndian_range bs : 0 <= DS.bigEndian bs < 256 ^ Z.of_nat (length bs).
Proof.
  unfold DS.bigEndian.
  enough (forall acc, 0 <= acc ->
            0 <= fold_left (fun a b => 256 * a + byte.unsigned b) bs acc
              < (acc + 1) * 256 ^ Z.of_nat (length bs)) as H.
  { specialize (H 0). lia. }
  induction bs as [|b bs IH]; intros acc Hacc; cbn [fold_left length].
  - cbn. lia.
  - pose proof (byte.unsigned_range b) as Hb. change (2 ^ 8) with 256 in Hb.
    specialize (IH (256 * acc + byte.unsigned b)).
    rewrite Nat2Z.inj_succ, Z.pow_succ_r by lia.
    assert (0 < 256 ^ Z.of_nat (length bs)) by (apply Z.pow_pos_nonneg; lia).
    nia.
Qed.

Lemma readUInt_range n ds :
  0 <= n -> 0 <= fst (DS.readUInt n ds) < 256 ^ n.
Proof.
  intros Hn. unfold DS.readUInt.
  destruct (DS.readBlock n ds) as [bs ds']. cbn [fst].
  destruct (Z.eqb_spec (Z.of_nat (length bs)) n) as [<-|_].
  - apply bigEndian_range.
  - split; [lia|]. apply Z.pow_pos_nonneg; lia.
Qed.

Lemma readLayerRecords_consumed uR count : forall layer recs consumed ds,
  0 <= consumed ->
  0 <= snd (fst (readLayerRecords uR count layer recs consumed ds)).
Proof.
  induction count as [|count IH]; intros layer recs consumed ds Hc; [done|].
  cbn [readLayerRecords]. unfold bind, skip.
  destruct (readPSDLayerRecord _ ds) as [record ds1].
  apply IH, wrap32_range.
Qed.

Lemma sumChannelImageData_nonneg recs : 0 <= sumChannelImageData recs.
Proof.
  unfold sumChannelImageData.
  enough (forall acc, 0 <= acc ->
            0 <= fold_left
                   (fun acc record =>
                      fold_left
                        (fun acc' info =>
                           wrap32 (acc' + PSDChannelInfo.correspondingChannelDataLength info))
                        (PSDLayerRecord.channelInfos record) acc)
                   recs acc) as H by (by apply H).
  induction recs as [|record recs IH]; intros acc Hacc; [done|].
  cbn [fold_left]. apply IH.
  generalize (PSDLayerRecord.channelInfos record) acc Hacc.
  induction l as [|info l IHl]; intros a Ha; [done|].
  cbn [fold_left]. apply IHl, wrap32_range.
Qed.

Lemma loadLayers_saved uP recs : forall i saved ds saved' ds',
  loadLayers uP i recs saved ds = (saved', true, ds') ->
  length saved' = (length saved + length recs)%nat.
Proof.
  induction recs as [|record recs IH]; intros i saved ds saved' ds' H;
    cbn [loadLayers] in H.
  - injection H as <- _. cbn. lia.
  - destruct (loadPSDLayer _ ds record) as [[image [|]] ds1]; [|discriminate].
    apply IH in H. rewrite H, length_app. cbn. lia.
Qed.

(** What [walkLayers] hands over when it reaches the comparison. *)
Lemma walkLayers_reaches uR uP file w :
  walkLayers uR uP file = inr w ->
  0 <= layerAndMaskInfoSection_length w < 2 ^ 32
  /\ 0 <= consumedLayerInfoSize w
  /\ 0 <= channelImageDataSize w
  /\ length (images w) = length (records w).
Proof.
  unfold walkLayers, readPSDLayerAndMaskInfoSection, DS.readUInt32. intros H.
  destruct (readPSDFileHeaderSection _) as [fileHeader ds1].
  destruct (negb _); [discriminate|].
  destruct (negb _); [discriminate|].
  destruct (readPSDColorModeDataSection ds1) as [? ds2].
  destruct (readPSDImageResouceSection ds2) as [? ds3].
  pose proof (readUInt_range 4 ds3 ltac:(lia)) as HL.
  destruct (DS.readUInt 4 ds3) as [lamiLength ds4]. cbn [fst] in HL.
  destruct (readPSDLayerInfo ds4) as [info ds5].
  pose proof (readLayerRecords_consumed uR
                (Z.to_nat (wrap16 (Z.abs (PSDLayerInfo.layerCount info))))
                0 [] 2 ds5 ltac:(lia)) as Hc.
  destruct (readLayerRecords uR _ 0 [] 2 ds5) as [[recs consumed] ds6].
  cbn [fst snd] in Hc.
  destruct (loadLayers uP 0 recs [] ds6) as [[saved [|]] ds7] eqn:Hload;
    [|discriminate].
  apply loadLayers_saved in Hload.
  injection H as <-. cbn [layerAndMaskInfoSection_length consumedLayerInfoSize
    channelImageDataSize images records].
  cbn [length] in Hload.
  repeat split; try lia. apply sumChannelImageData_nonneg.
Qed.

Lemma walkLayers_early uR uP file code saved :
  walkLayers uR uP file = inl (code, saved) -> code = -1.
Proof.
  unfold walkLayers. intros H.
  destruct (readPSDFileHeaderSection _) as [fileHeader ds1].
  destruct (negb _); [by injection H as <- _|].
  destruct (negb _); [by injection H as <- _|].
  destruct (readPSDColorModeDataSection ds1) as [? ds2].
  destruct (readPSDImageResouceSection ds2) as [? ds3].
  destruct (readPSDLayerAndMaskInfoSection ds3) as [lamiLength ds4].
  destruct (readPSDLayerInfo ds4) as [info ds5].
  destruct (readLayerRecords uR _ 0 [] 2 ds5) as [[recs consumed] ds6].
  destruct (loadLayers uP 0 recs [] ds6) as [[saved' [|]] ds7];
    [discriminate|by injection H as <- _].
Qed.

Lemma scannerCall_budget uG w :
  snd (scannerCall uG w)
  = wrap32 (layerAndMaskInfoSection_length w
            - (4 + consumedLayerInfoSize w + channelImageDataSize w
               + declaredGlobalLength uG w + 4)).
Proof.
  unfold scannerCall, declaredGlobalLength.
  destruct (readPSDGlobalLayerMaskInfo uG (stream w)) as [g ds].
  cbn [fst snd]. unfold wrap32.
  rewrite Zminus_mod_idemp_l. f_equal. lia.
Qed.

Lemma declaredGlobalLength_nonneg uG w : 0 <= declaredGlobalLength uG w.
Proof.
  unfold declaredGlobalLength, readPSDGlobalLayerMaskInfo, bind, ret,
    DS.readUInt32.
  pose proof (readUInt_range 4 (stream w) ltac:(lia)) as H.
  destruct (DS.readUInt 4 (stream w)) as [len ds1]. cbn [fst] in H.
  destruct (len =? 0); [cbn; lia|].
  unfold DS.readUInt16, DS.readUInt8, skip.
  repeat match goal with
    | |- context [DS.readUInt ?n ?s] => destruct (DS.readUInt n s)
    end.
  cbn. lia.
Qed.

(** C8. For a document that [main] parses to the end with exit
    code 0, the budget handed to the scanner is
    [LayerAndMaskInfo.length - (4 + consumedLayerInfoSize +
    channelImageDataSize + GlobalLayerMaskInfo.length + 4)] computed in
    unsigned 32-bit arithmetic, that is, modulo 2^32 (the 2-byte padding
    after the channel data is not subtracted); it is that difference
    itself whenever the sum does not exceed [LayerAndMaskInfo.length]. *)
Theorem main_scanner_budget uR uP uG uB file :
  exitCode (main uR uP uG uB file) = 0 ->
  exists w,
    walkLayers uR uP file = inr w
    /\ let total :=
         4 + consumedLayerInfoSize w + channelImageDataSize w
         + declaredGlobalLength uG w + 4 in
       scannerBudget (main uR uP uG uB file)
       = Some (wrap32 (layerAndMaskInfoSection_length w - total))
       /\ (total <= layerAndMaskInfoSection_length w ->
           scannerBudget (main uR uP uG uB file)
           = Some (layerAndMaskInfoSection_length w - total)).
Proof.
  unfold main. intros Hexit.
  destruct (walkLayers uR uP file) as [[code saved]|w] eqn:Hwalk.
  - apply walkLayers_early in Hwalk. cbn in Hexit. lia.
  - exists w. split; [done|]. cbv zeta.
    pose proof (scannerCall_budget uG w) as Hbudget.
    unfold finishWalk in *.
    destruct (scannerCall uG w) as [ds budget]. cbn [snd] in Hbudget.
    cbn [scannerBudget]. rewrite Hbudget. split; [done|].
    intros Hfits. f_equal. unfold wrap32. apply Z.mod_small.
    destruct (walkLayers_reaches _ _ _ _ Hwalk) as (HL & Hc & Hs & _).
    pose proof (declaredGlobalLength_nonneg uG w). lia.
Qed.

Lemma main_scanner_budget_witness :
  exists w,
    walkLayers (fun _ => demoRecord) (fun _ => []) (oneLayerDocument 48) = inr w
    /\ let total :=
         4 + consumedLayerInfoSize w + channelImageDataSize w
         + declaredGlobalLength demoGlobal w + 4 in
       scannerBudget
         (main (fun _ => demoRecord) (fun _ => []) demoGlobal demoBlock
            (oneLayerDocument 48))
       = Some (wrap32 (layerAndMaskInfoSection_length w - total))
       /\ (total <= layerAndMaskInfoSection_length w ->
           scannerBudget
             (main (fun _ => demoRecord) (fun _ => []) demoGlobal demoBlock
                (oneLayerDocument 48))
           = Some (layerAndMaskInfoSection_length w - total)).
Proof.
  apply (main_scanner_budget (fun _ => demoRecord) (fun _ => [])
           demoGlobal demoBlock (oneLayerDocument 48)).
  vm_compute. reflexivity.
Defined.

(** A document that [main] parses with exit code 0 although the bytes
    accounted for exceed the declared section length: the budget the
    scanner receives is 2^32 - 10, not -10. *)
Lemma main_scanner_budget_wraps :
  exists w,
    walkLayers (fun _ => demoRecord) (fun _ => []) underflowDocument = inr w
    /\ exitCode (main (fun _ => demoRecord) (fun _ => []) demoGlobal demoBlock
                   underflowDocument) = 0
    /\ scannerBudget (main (fun _ => demoRecord) (fun _ => []) demoGlobal
                        demoBlock underflowDocument)
       = Some 4294967286
    /\ layerAndMaskInfoSection_length w
       - (4 + consumedLayerInfoSize w + channelImageDataSize w
          + declaredGlobalLength demoGlobal w + 4) = -10.
Proof. eexists. split; [vm_compute; reflexivity | by vm_compute]. Qed.




Example oneLayerDocument_mismatch_run :
  let r := main (fun _ => demoRecord) (fun _ => []) demoGlobal demoBlock
             (oneLayerDocument 50) in
  exitCode r = 0
  /\ mismatchReported r = true
  /\ map (fun img => map qRed (QImage.bits img)) (savedLayers r)
     = [[10; 20; 30; 40]].
Proof. by vm_compute. Qed.

Example oneLayerDocument_run :
  let r := main (fun _ => demoRecord) (fun _ => []) demoGlobal demoBlock
             (oneLayerDocument 48) in
  exitCode r = 0 /\ mismatchReported r = false /\ scannerBudget r = Some 12.
Proof. by vm_compute. Qed.

(** * Further properties of the program *)

(** ** Compositor: what it keeps and how applications compose *)

Lemma below_pow2_of_bits a n :
  0 <= a -> 0 <= n ->
  (forall k, n <= k -> Z.testbit a k = false) -> a < 2 ^ n.
Proof.
  intros Ha Hn Hbits.
  replace a with (a mod 2 ^ n); [apply Z.mod_pos_bound; lia|].
  apply Z.bits_inj'; intros k Hk.
  destruct (Z.lt_ge_cases k n).
  - by apply Z.mod_pow2_bits_low.
  - rewrite Z.mod_pow2_bits_high by lia. symmetry. by apply Hbits.
Qed.

Lemma bits_above_pow2 a n k :
  0 <= a < 2 ^ n -> n <= k -> Z.testbit a k = false.
Proof.
  intros Ha Hk. destruct (Z.eq_dec a 0) as [->|Hne]; [apply Z.bits_0|].
  apply Z.bits_above_log2; [lia|].
  assert (Z.log2 a < n); [|lia].
  apply Z.log2_lt_pow2; lia.
Qed.

Lemma mergeSubPixel_range channel pixel sub pixel' :
  0 <= pixel < 2 ^ 32 -> 0 <= sub < 256 ->
  mergeSubPixel channel pixel sub = Some pixel' ->
  0 <= pixel' < 2 ^ 32.
Proof.
  intros Hp Hs. unfold mergeSubPixel.
  repeat (destruct (_ =? _); [intros [= <-]|]); [..|discriminate].
  all: split;
    [apply Z.lor_nonneg; split;
       [apply Z.land_nonneg; lia | apply Z.shiftl_nonneg; lia]|].
  all: apply below_pow2_of_bits; [| lia |];
    [apply Z.lor_nonneg; split;
       [apply Z.land_nonneg; lia | apply Z.shiftl_nonneg; lia]|].
  all: intros k Hk; rewrite Z.lor_spec, Z.land_spec, Z.shiftl_spec by lia;
    rewrite (bits_above_pow2 pixel 32 k) by (done || lia);
    rewrite (testbit_byte sub) by lia; reflexivity.
Qed.

Lemma rasterKept_refl img : rasterKept img img.
Proof. by repeat split. Qed.

Lemma rasterKept_trans a b c : rasterKept a b -> rasterKept b c -> rasterKept a c.
Proof.
  intros (Hw & Hh & Hl & Hr) (Hw' & Hh' & Hl' & Hr').
  repeat split; [congruence..|auto].
Qed.

Lemma compoundPixel_kept bytes channel x y img img' :
  compoundPixel bytes channel x y img = inl img' -> rasterKept img img'.
Proof.
  unfold compoundPixel. destruct (_ >=? _); [discriminate|].
  destruct (mergeSubPixel _ _ _) as [pixel'|] eqn:Hmerge; [|discriminate].
  intros [= <-]. unfold QImage.setPixel, rasterKept.
  cbn [QImage.width QImage.height QImage.bits].
  repeat split; [apply length_insert|]. intros Hrange.
  apply Forall_insert; [done|].
  eapply mergeSubPixel_range; [|apply byte.unsigned_range|exact Hmerge].
  unfold QImage.pixel. rewrite nth_lookup.
  destruct (QImage.bits img !! _) as [p|] eqn:Hp; cbn; [|lia].
  by eapply (Forall_lookup_1 _ _ _ _ Hrange).
Qed.

Lemma compoundRow_kept bytes channel y count : forall x img,
  rasterKept img (fst (compoundRow count bytes channel x y img)).
Proof.
  induction count as [|count IH]; intros x img; cbn [compoundRow];
    [apply rasterKept_refl|].
  destruct (compoundPixel bytes channel x y img) as [img'|why] eqn:Hpix;
    [|apply rasterKept_refl].
  eapply rasterKept_trans; [by eapply compoundPixel_kept|apply IH].
Qed.

Lemma compoundRows_kept bytes channel count : forall y img,
  rasterKept img (fst (compoundRows count bytes channel y img)).
Proof.
  induction count as [|count IH]; intros y img; cbn [compoundRows];
    [apply rasterKept_refl|].
  pose proof (compoundRow_kept bytes channel y (Z.to_nat (QImage.width img)) 0 img)
    as Hrow.
  destruct (compoundRow _ bytes channel 0 y img) as [img' [why|]];
    cbn [fst] in *; [done|].
  eapply rasterKept_trans; [exact Hrow|apply IH].
Qed.

(** X1. Whatever the plane and the channel identifier, and however the call
    ends, the raster keeps its width, its height and the size of its
    pixel buffer, and its pixels stay 32-bit values. *)
Theorem compoundLayerChannel_keeps_raster img bytes channel :
  rasterKept img (fst (compoundLayerChannel img bytes channel)).
Proof. apply compoundRows_kept. Qed.

Lemma compoundRow_short bytes channel i w h y bits count : forall x,
  laneOf channel = Some i ->
  0 <= x -> 0 <= y * w ->
  (Z.to_nat (y * w + x) <= length bytes < Z.to_nat (y * w + x) + count)%nat ->
  compoundRow count bytes channel x y
    (QImage.mk w h (compoundedUpTo bytes channel (Z.to_nat (y * w + x)) bits))
  = (QImage.mk w h (compoundedUpTo bytes channel (length bytes) bits),
     Some SourceOutOfRange).
Proof.
  induction count as [|count IH]; intros x Hlane Hx Hy Hfit; [lia|].
  destruct (decide (Z.to_nat (y * w + x) = length bytes)) as [Heq|Hne].
  - cbn [compoundRow]. unfold compoundPixel. cbn [QImage.width].
    destruct (Z.geb_spec (y * w + x) (Z.of_nat (length bytes))); [|lia].
    by rewrite Heq.
  - cbn [compoundRow]. unfold compoundPixel, QImage.pixel, QImage.setPixel.
    cbn [QImage.width QImage.height QImage.bits].
    destruct (Z.geb_spec (y * w + x) (Z.of_nat (length bytes))); [lia|].
    rewrite nth_compoundedUpTo_next.
    destruct (mergeSubPixel_lanes channel
                (nth (Z.to_nat (y * w + x)) bits 0)
                (byte.unsigned (nth (Z.to_nat (y * w + x)) bytes Byte.x00)) i)
      as (pixel' & Hmerge & _); [apply byte.unsigned_range|done|].
    rewrite Hmerge.
    replace pixel' with
      (default (nth (Z.to_nat (y * w + x)) bits 0)
         (mergeSubPixel channel (nth (Z.to_nat (y * w + x)) bits 0)
            (byte.unsigned (nth (Z.to_nat (y * w + x)) bytes Byte.x00))))
      by (by rewrite Hmerge).
    rewrite compoundedUpTo_succ.
    replace (S (Z.to_nat (y * w + x))) with (Z.to_nat (y * w + (x + 1))) by lia.
    apply IH; (done || lia).
Qed.

Lemma compoundRows_short bytes channel i w h bits count : forall y,
  laneOf channel = Some i ->
  0 <= y -> 0 <= w ->
  (Z.to_nat (y * w) <= length bytes < Z.to_nat ((y + Z.of_nat count) * w))%nat ->
  compoundRows count bytes channel y
    (QImage.mk w h (compoundedUpTo bytes channel (Z.to_nat (y * w)) bits))
  = (QImage.mk w h (compoundedUpTo bytes channel (length bytes) bits),
     SourceOutOfRange).
Proof.
  induction count as [|count IH]; intros y Hlane Hy Hw Hfit; [lia|].
  cbn [compoundRows QImage.width].
  replace (Z.to_nat (y * w)) with (Z.to_nat (y * w + 0)) by (f_equal; lia).
  destruct (Nat.lt_ge_cases (length bytes) (Z.to_nat ((y + 1) * w))).
  - by rewrite (compoundRow_short bytes channel i) by (done || nia).
  - rewrite (compoundRow_lane bytes channel i) by (done || nia).
    replace (Z.to_nat (y * w + 0) + Z.to_nat w)%nat
      with (Z.to_nat ((y + 1) * w)) by nia.
    apply IH; (done || nia).
Qed.

(** X2. A plane shorter than the raster: the pixels that have a byte in the
    plane, in row-major order, receive it; at the first pixel without
    one the compositor returns with its out-of-range message and leaves
    the remaining pixels as they were. *)
Theorem compoundLayerChannel_short_plane img bytes channel :
  wellFormedImage img ->
  -1 <= channel <= 2 ->
  Z.of_nat (length bytes) < QImage.width img * QImage.height img ->
  compoundLayerChannel img bytes channel
  = (QImage.mk (QImage.width img) (QImage.height img)
       (compoundedUpTo bytes channel (length bytes) (QImage.bits img)),
     SourceOutOfRange).
Proof.
  intros (Hw & Hh & Hbits) Hch Hshort. destruct img as [w h bits].
  cbn [QImage.width QImage.height QImage.bits] in *.
  assert (Hlane : laneOf channel = Some (Z.to_nat (channel + 1))).
  { unfold laneOf.
    repeat match goal with
      | |- context [?a =? ?b] => destruct (Z.eqb_spec a b); [by subst|]
      end. lia. }
  unfold compoundLayerChannel; cbn [QImage.height].
  rewrite <- (compoundedUpTo_0 bytes channel bits) at 1.
  change 0%nat with (Z.to_nat (0 * w)).
  apply (compoundRows_short bytes channel _ w h bits _ 0 Hlane); [done|done|].
  nia.
Qed.

Lemma compoundLayerChannel_short_plane_witness :
  compoundLayerChannel (QImage.mk 2 2 [0; 0; 0; 0]) (hex [10; 20; 30]) 0
  = (QImage.mk 2 2
       (compoundedUpTo (hex [10; 20; 30]) 0 3 [0; 0; 0; 0]),
     SourceOutOfRange).
Proof.
  apply (compoundLayerChannel_short_plane (QImage.mk 2 2 [0; 0; 0; 0])
           (hex [10; 20; 30]) 0).
  - unfold wellFormedImage; cbn; lia.
  - lia.
  - cbn; lia.
Defined.

Ltac unfold_masks :=
  unfold mergeSubPixel; cbv [Z.eqb Pos.eqb default id];
  change 0x00FFFFFF with (Z.ones 24);
  change 0xFF00FFFF with (Z.lor (Z.ones 16) (Z.shiftl (Z.ones 8) 24));
  change 0xFFFF00FF with (Z.lor (Z.ones 8) (Z.shiftl (Z.ones 16) 16));
  change 0xFFFFFF00 with (Z.shiftl (Z.ones 24) 8).

Ltac valid_channel H :=
  let c := match type of H with -1 <= ?c <= 2 => c end in
  assert (c = -1 \/ c = 0 \/ c = 1 \/ c = 2) as [->|[->|[->| ->]]] by lia.

(** Two different lanes of one pixel can be written in either order. *)
Lemma mergeSubPixel_commute c1 c2 pixel s1 s2 :
  -1 <= c1 <= 2 -> -1 <= c2 <= 2 -> c1 <> c2 ->
  0 <= s1 < 256 -> 0 <= s2 < 256 ->
  default 0 (mergeSubPixel c2 (default 0 (mergeSubPixel c1 pixel s1)) s2)
  = default 0 (mergeSubPixel c1 (default 0 (mergeSubPixel c2 pixel s2)) s1).
Proof.
  intros H1 H2 Hne Hs1 Hs2. valid_channel H1; valid_channel H2; try lia;
    unfold_masks; lane_bits.
Qed.

(** Writing a lane twice leaves the later byte. *)
Lemma mergeSubPixel_overwrite c pixel s1 s2 :
  -1 <= c <= 2 -> 0 <= s1 < 256 -> 0 <= s2 < 256 ->
  default 0 (mergeSubPixel c (default 0 (mergeSubPixel c pixel s1)) s2)
  = default 0 (mergeSubPixel c pixel s2).
Proof.
  intros H Hs1 Hs2. valid_channel H;
    unfold_masks; lane_bits.
Qed.

Lemma laneOf_valid channel :
  -1 <= channel <= 2 -> laneOf channel = Some (Z.to_nat (channel + 1)).
Proof. intros H. by valid_channel H. Qed.

Lemma mergeSubPixel_valid channel pixel sub d :
  -1 <= channel <= 2 ->
  default d (mergeSubPixel channel pixel sub)
  = default 0 (mergeSubPixel channel pixel sub).
Proof. intros H. by valid_channel H. Qed.

Lemma compoundLayerChannel_bits img bytes channel :
  wellFormedImage img ->
  -1 <= channel <= 2 ->
  QImage.width img * QImage.height img <= Z.of_nat (length bytes) ->
  fst (compoundLayerChannel img bytes channel)
  = QImage.mk (QImage.width img) (QImage.height img)
      (imap (fun k pixel =>
               default 0
                 (mergeSubPixel channel pixel
                    (byte.unsigned (nth k bytes Byte.x00))))
         (QImage.bits img)).
Proof.
  intros Himg Hch Hfit.
  rewrite (compoundLayerChannel_lane _ _ _ _ (laneOf_valid _ Hch) Himg Hfit).
  cbn [fst]. f_equal. unfold compoundedUpTo.
  apply list_eq; intros k. rewrite !list_lookup_imap.
  destruct (QImage.bits img !! k) as [p|] eqn:Hp; [|done].
  apply lookup_lt_Some in Hp. cbn [fmap option_fmap option_map].
  destruct (Nat.ltb_spec k (length (QImage.bits img))); [|lia].
  by rewrite mergeSubPixel_valid.
Qed.

(** X3. Planes for two different channels can be composited in either
    order: the raster obtained is the same. *)
Theorem compoundLayerChannel_commute img bytes1 bytes2 c1 c2 :
  wellFormedImage img ->
  QImage.width img * QImage.height img <= Z.of_nat (length bytes1) ->
  QImage.width img * QImage.height img <= Z.of_nat (length bytes2) ->
  -1 <= c1 <= 2 -> -1 <= c2 <= 2 -> c1 <> c2 ->
  fst (compoundLayerChannel (fst (compoundLayerChannel img bytes1 c1)) bytes2 c2)
  = fst (compoundLayerChannel (fst (compoundLayerChannel img bytes2 c2)) bytes1 c1).
Proof.
  intros Himg Hfit1 Hfit2 Hc1 Hc2 Hne.
  pose proof Himg as (Hw & Hh & Hbits).
  rewrite (compoundLayerChannel_bits img bytes1 c1),
          (compoundLayerChannel_bits img bytes2 c2) by done.
  rewrite !compoundLayerChannel_bits;
    try done; try (repeat split; cbn; rewrite ?length_imap; done).
  cbn [QImage.width QImage.height QImage.bits]. f_equal.
  apply list_eq; intros k. rewrite !list_lookup_imap.
  destruct (QImage.bits img !! k) as [p|]; [|done].
  cbn [fmap option_fmap option_map]. f_equal.
  apply mergeSubPixel_commute; (done || apply byte.unsigned_range).
Qed.

Lemma compoundLayerChannel_commute_witness :
  fst (compoundLayerChannel
         (fst (compoundLayerChannel (QImage.mk 2 1 [0; 0]) (hex [1; 2]) 0))
         (hex [3; 4]) (-1))
  = fst (compoundLayerChannel
           (fst (compoundLayerChannel (QImage.mk 2 1 [0; 0]) (hex [3; 4]) (-1)))
           (hex [1; 2]) 0).
Proof.
  apply compoundLayerChannel_commute;
    [unfold wellFormedImage; cbn; lia | cbn; lia | cbn; lia | lia | lia | lia].
Defined.

(** X4. A second plane for the same channel replaces the first: the raster
    is the one obtained from the second plane alone. *)
Theorem compoundLayerChannel_overwrite img bytes1 bytes2 channel :
  wellFormedImage img ->
  QImage.width img * QImage.height img <= Z.of_nat (length bytes1) ->
  QImage.width img * QImage.height img <= Z.of_nat (length bytes2) ->
  -1 <= channel <= 2 ->
  fst (compoundLayerChannel (fst (compoundLayerChannel img bytes1 channel))
         bytes2 channel)
  = fst (compoundLayerChannel img bytes2 channel).
Proof.
  intros Himg Hfit1 Hfit2 Hch.
  pose proof Himg as (Hw & Hh & Hbits).
  rewrite (compoundLayerChannel_bits img bytes1 channel),
          (compoundLayerChannel_bits img bytes2 channel) by done.
  rewrite !compoundLayerChannel_bits;
    try done; try (repeat split; cbn; rewrite ?length_imap; done).
  cbn [QImage.width QImage.height QImage.bits]. f_equal.
  apply list_eq; intros k. rewrite !list_lookup_imap.
  destruct (QImage.bits img !! k) as [p|]; [|done].
  cbn [fmap option_fmap option_map]. f_equal.
  apply mergeSubPixel_overwrite; (done || apply byte.unsigned_range).
Qed.

Lemma compoundLayerChannel_overwrite_witness :
  fst (compoundLayerChannel
         (fst (compoundLayerChannel (QImage.mk 2 1 [0; 0]) (hex [1; 2]) 0))
         (hex [3; 4]) 0)
  = fst (compoundLayerChannel (QImage.mk 2 1 [0; 0]) (hex [3; 4]) 0).
Proof.
  apply compoundLayerChannel_overwrite;
    [unfold wellFormedImage; cbn; lia | cbn; lia | cbn; lia | lia].
Defined.
(** Once all four lanes are written nothing of the old pixel is left. *)
Lemma mergeSubPixel_argb pixel a r g b :
  0 <= a < 256 -> 0 <= r < 256 -> 0 <= g < 256 -> 0 <= b < 256 ->
  default 0
    (mergeSubPixel 2
       (default 0
          (mergeSubPixel 1
             (default 0
                (mergeSubPixel 0 (default 0 (mergeSubPixel (-1) pixel a)) r))
             g))
       b)
  = Z.lor (Z.lor (Z.lor (Z.shiftl a 24) (Z.shiftl r 16)) (Z.shiftl g 8)) b.
Proof.
  intros Ha Hr Hg Hb. unfold_masks. lane_bits.
Qed.

(** X5. Compositing an alpha, a red, a green and a blue plane of full
    size fixes every pixel: the raster obtained holds
    [alpha << 24 | red << 16 | green << 8 | blue] at each position and
    does not depend on what the pixel buffer held before. *)
Theorem compoundLayerChannel_all_lanes img alpha red green blue :
  wellFormedImage img ->
  QImage.width img * QImage.height img <= Z.of_nat (length alpha) ->
  QImage.width img * QImage.height img <= Z.of_nat (length red) ->
  QImage.width img * QImage.height img <= Z.of_nat (length green) ->
  QImage.width img * QImage.height img <= Z.of_nat (length blue) ->
  fst (compoundLayerChannel
         (fst (compoundLayerChannel
                 (fst (compoundLayerChannel
                         (fst (compoundLayerChannel img alpha (-1)))
                         red 0))
                 green 1))
         blue 2)
  = QImage.mk (QImage.width img) (QImage.height img)
      (imap (fun k _ =>
               Z.lor
                 (Z.lor
                    (Z.lor (Z.shiftl (byte.unsigned (nth k alpha Byte.x00)) 24)
                           (Z.shiftl (byte.unsigned (nth k red Byte.x00)) 16))
                    (Z.shiftl (byte.unsigned (nth k green Byte.x00)) 8))
                 (byte.unsigned (nth k blue Byte.x00)))
         (QImage.bits img)).
Proof.
  intros Himg Ha Hr Hg Hb.
  pose proof Himg as (Hw & Hh & Hbits).
  rewrite (compoundLayerChannel_bits img alpha (-1)) by (done || lia).
  rewrite (compoundLayerChannel_bits _ red 0);
    [|repeat split; cbn; rewrite ?length_imap; done|lia|done].
  cbn [QImage.width QImage.height QImage.bits].
  rewrite (compoundLayerChannel_bits _ green 1);
    [|repeat split; cbn; rewrite ?length_imap; done|lia|done].
  cbn [QImage.width QImage.height QImage.bits].
  rewrite (compoundLayerChannel_bits _ blue 2);
    [|repeat split; cbn; rewrite ?length_imap; done|lia|done].
  cbn [QImage.width QImage.height QImage.bits]. f_equal.
  apply list_eq; intros k. rewrite !list_lookup_imap.
  destruct (QImage.bits img !! k) as [p|]; [|done].
  cbn [fmap option_fmap option_map]. f_equal.
  apply mergeSubPixel_argb; apply byte.unsigned_range.
Qed.

Lemma compoundLayerChannel_all_lanes_witness :
  fst (compoundLayerChannel
         (fst (compoundLayerChannel
                 (fst (compoundLayerChannel
                         (fst (compoundLayerChannel
                                 (QImage.mk 2 1 [0xDEADBEEF; 0x12345678])
                                 (hex [255; 128]) (-1)))
                         (hex [1; 2]) 0))
                 (hex [3; 4]) 1))
         (hex [5; 6]) 2)
  = QImage.mk 2 1 [0xFF010305; 0x80020406].
Proof.
  apply (compoundLayerChannel_all_lanes
           (QImage.mk 2 1 [0xDEADBEEF; 0x12345678])
           (hex [255; 128]) (hex [1; 2]) (hex [3; 4]) (hex [5; 6]));
    repeat split; cbn; lia.
Defined.
(** ** Decoder: the length table and what follows the scanlines *)

(** The length-table loop gives up exactly when the stream is empty at
    the start of one of its iterations: a single left-over byte is still
    read as an entry. *)
Lemma readLengthTable_none count : forall s,
  readLengthTable count s = None
  <-> (0 < count /\ length s <= 2 * (count - 1))%nat.
Proof.
  induction count as [|count IH]; intros s.
  - cbn. split; [discriminate|lia].
  - cbn [readLengthTable].
    destruct s as [|b1 [|b2 r]]; cbn [RLEStream.atEnd RLEStream.readUInt16].
    + cbn. split; [lia|done].
    + specialize (IH []). destruct (readLengthTable count []) as [[table s2]|].
      * split; [discriminate|]. intros [_ H]. cbn in H.
        destruct IH as [_ IH]. discriminate IH. cbn. lia.
      * split; [|done]. intros _. destruct IH as [IH _].
        cbn in *. specialize (IH eq_refl). lia.
    + specialize (IH r). destruct (readLengthTable count r) as [[table s2]|].
      * split; [discriminate|]. intros [_ H]. cbn [length] in H.
        destruct IH as [_ IH]. discriminate IH. lia.
      * split; [|done]. intros _. destruct IH as [IH _].
        specialize (IH eq_refl). cbn [length]. lia.
Qed.

(** X6. For a plane of at least one scanline, the decoder's length
    table cannot be read exactly when the compressed array has at most
    [2 * (height - 1)] bytes, that is when nothing is left for the last
    entry; the decoder then returns the empty array whatever the width. *)
Theorem uncompressRLE_short_table width height compressed :
  0 < height ->
  (readLengthTable (Z.to_nat height) compressed = None
   <-> Z.of_nat (length compressed) <= 2 * (height - 1))
  /\ (Z.of_nat (length compressed) <= 2 * (height - 1) ->
      uncompressRLE width height compressed = []).
Proof.
  intros Hh.
  assert (readLengthTable (Z.to_nat height) compressed = None
          <-> Z.of_nat (length compressed) <= 2 * (height - 1)) as Hiff.
  { rewrite readLengthTable_none. lia. }
  split; [done|]. intros Hshort. apply Hiff in Hshort.
  unfold uncompressRLE, uncompressRLE_run. by rewrite Hshort.
Qed.

Lemma uncompressRLE_short_table_witness :
  (readLengthTable (Z.to_nat 2) (hex [0; 1]) = None
   <-> Z.of_nat (length (hex [0; 1])) <= 2 * (2 - 1))
  /\ (Z.of_nat (length (hex [0; 1])) <= 2 * (2 - 1) ->
      uncompressRLE 1 2 (hex [0; 1]) = []).
Proof.
  apply (uncompressRLE_short_table 1 2 (hex [0; 1])). lia.
Defined.

(** X7. Bytes that follow the encoded scanlines are not looked at: a
    well-formed encoding followed by any bytes decodes to the same
    plane ([width], [height] and their product being values of an
    [int]). *)
Theorem uncompressRLE_ignores_trailing width height lines (tail : QByteArray) :
  0 <= width ->
  width <= 2 ^ 31 - 1 -> height <= 2 ^ 31 - 1 ->
  width * height <= 2 ^ 31 - 1 ->
  Reference.wellFormed width height lines ->
  uncompressRLE width height (Reference.compress lines ++ tail)
  = Reference.plane lines.
Proof.
  intros Hw _ _ _ [Hcount Hlines].
  unfold uncompressRLE, uncompressRLE_run, Reference.compress.
  replace (Z.to_nat height) with (length lines) by lia.
  rewrite <- app_assoc, readLengthTable_lengthTable.
  2:{ eapply Forall_impl; [exact Hlines|]. by intros runs (_ & _ & H). }
  replace (zeroBytes (width * height))
    with ([] ++ zeroBytes (Z.of_nat (length lines) * width))
    by (cbn; f_equal; lia).
  destruct (decodeScanLines_lines width lines 0 [] tail []) as [log' ->];
    [done|lia|done|cbn; lia|].
  done.
Qed.

Lemma uncompressRLE_ignores_trailing_witness :
  uncompressRLE 3 1
    (Reference.compress [[Reference.Repeat 3 (byte.of_Z 7)]] ++ hex [1; 2; 3])
  = Reference.plane [[Reference.Repeat 3 (byte.of_Z 7)]].
Proof.
  apply (uncompressRLE_ignores_trailing 3 1); [lia..|].
  split; [reflexivity|].
  repeat constructor; cbn; lia.
Defined.
(** ** Layer decode: the image handed back *)

Lemma loadChannels_kept width height infos : forall image ds image',
  fst (loadChannels width height infos image ds) = Some image' ->
  rasterKept image image'.
Proof.
  induction infos as [|info infos IH]; intros image ds image';
    cbn [loadChannels].
  - cbn [fst]. intros [= <-]. apply rasterKept_refl.
  - destruct (DS.readUInt16 ds) as [compressionMode ds1].
    destruct (negb (DS.ok ds1)); [discriminate|].
    destruct (compressionMode =? 0).
    + destruct (DS.readRawData _ ds1) as [raw ds2]. intros H.
      eapply rasterKept_trans; [|exact (IH _ _ _ H)].
      apply compoundRows_kept.
    + destruct (compressionMode =? 1); [|discriminate].
      destruct (DS.readRawData _ ds1) as [compressed ds2].
      destruct (negb _); [discriminate|]. intros H.
      eapply rasterKept_trans; [|exact (IH _ _ _ H)].
      apply compoundRows_kept.
Qed.

(** X8. For a record whose extent is not negative and whose pixel
    count is a value of an [int], the image [loadPSDLayer] hands back
    is the null image, or else the layer has loaded, its extent,
    [right - left] by [bottom - top], is positive in both directions,
    and the image has exactly that extent with one pixel per position.
    In particular a layer that fails to load, or one of empty extent,
    gives the null image. *)
Theorem loadPSDLayer_image fresh ds record :
  extentFits record ->
  let image := fst (fst (loadPSDLayer fresh ds record)) in
  image = QImage.null
  \/ (snd (fst (loadPSDLayer fresh ds record)) = true
      /\ 0 < layerWidth record /\ 0 < layerHeight record
      /\ QImage.width image = layerWidth record
      /\ QImage.height image = layerHeight record
      /\ Z.of_nat (length (QImage.bits image))
         = layerWidth record * layerHeight record).
Proof.
  intros _. cbv zeta. unfold loadPSDLayer, layerWidth, layerHeight.
  set (width := toInt32 (PSDLayerRecord.right record - PSDLayerRecord.left record)).
  set (height := toInt32 (PSDLayerRecord.bottom record - PSDLayerRecord.top record)).
  pose proof (loadChannels_kept width height (PSDLayerRecord.channelInfos record)
                (QImage.create width height fresh) ds) as Hkept.
  destruct (loadChannels width height _ _ ds) as [[image'|] ds'];
    cbn [fst snd]; [|by left].
  destruct (Hkept image' eq_refl) as (Hw & Hh & Hlen & _).
  unfold QImage.create in Hw, Hh, Hlen.
  destruct (Z.ltb_spec 0 width), (Z.ltb_spec 0 height);
    cbn [andb QImage.width QImage.height QImage.bits QImage.null] in *.
  - right. rewrite length_resize in Hlen. repeat split; (done || nia).
  - left. destruct image' as [w h bits]. cbn in *. subst.
    by destruct bits.
  - left. destruct image' as [w h bits]. cbn in *. subst.
    by destruct bits.
  - left. destruct image' as [w h bits]. cbn in *. subst.
    by destruct bits.
Qed.

Lemma loadPSDLayer_image_witness :
  fst (fst (loadPSDLayer [] (DS.mk [] true) blankRecord)) = QImage.null
  \/ (snd (fst (loadPSDLayer [] (DS.mk [] true) blankRecord)) = true
      /\ 0 < layerWidth blankRecord /\ 0 < layerHeight blankRecord
      /\ QImage.width (fst (fst (loadPSDLayer [] (DS.mk [] true) blankRecord)))
         = layerWidth blankRecord
      /\ QImage.height (fst (fst (loadPSDLayer [] (DS.mk [] true) blankRecord)))
         = layerHeight blankRecord
      /\ Z.of_nat
           (length
              (QImage.bits
                 (fst (fst (loadPSDLayer [] (DS.mk [] true) blankRecord)))))
         = layerWidth blankRecord * layerHeight blankRecord).
Proof.
  apply (loadPSDLayer_image [] (DS.mk [] true) blankRecord).
  vm_compute. repeat split; discriminate.
Defined.

(** ** Section readers: how far the cursor moves *)

Lemma rest_skipRawData len ds :
  0 <= len -> DS.rest (DS.skipRawData len ds) = drop (Z.to_nat len) (DS.rest ds).
Proof.
  intros H. unfold DS.skipRawData.
  destruct (Z.ltb_spec len 0); [lia|]. apply rest_readBlock.
Qed.

(** X9. The color-mode and image-resource sections are stepped over whole:
    for a declared length below 2^31 the cursor moves by the four bytes
    of the length and by the length read, or to the end of the file when
    the file is shorter. *)
Theorem readPSDColorModeDataSection_cursor ds :
  (fst (readPSDColorModeDataSection ds) < 2 ^ 31 ->
     DS.rest (snd (readPSDColorModeDataSection ds))
     = drop (4 + Z.to_nat (fst (readPSDColorModeDataSection ds))) (DS.rest ds))
  /\ (fst (readPSDImageResouceSection ds) < 2 ^ 31 ->
      DS.rest (snd (readPSDImageResouceSection ds))
      = drop (4 + Z.to_nat (fst (readPSDImageResouceSection ds))) (DS.rest ds)).
Proof.
  unfold readPSDColorModeDataSection, readPSDImageResouceSection, bind, ret,
    skip, DS.readUInt32.
  pose proof (rest_readUInt 4 ds) as H1.
  pose proof (readUInt_range 4 ds ltac:(lia)) as Hr.
  destruct (DS.readUInt 4 ds) as [len ds1]. cbn [fst snd] in *.
  rewrite rest_skipRawData, H1, drop_drop by lia.
  split; intros _; f_equal; lia.
Qed.

Lemma readPSDColorModeDataSection_cursor_witness :
  DS.rest (snd (readPSDColorModeDataSection
                  (DS.mk (hex [0; 0; 0; 2; 7; 7; 9; 9]) true)))
  = hex [9; 9].
Proof.
  refine (eq_trans
            (proj1 (readPSDColorModeDataSection_cursor
                      (DS.mk (hex [0; 0; 0; 2; 7; 7; 9; 9]) true)) _) _).
  - vm_compute. reflexivity.
  - reflexivity.
Defined.

Lemma readPSDLayerRecord_read d ds :
  PSDLayerRecord.signature (fst (readPSDLayerRecord d ds)) = PSDSignature8BIM ->
  DS.rest (snd (readPSDLayerRecord d ds))
  = drop (34 + 6 * Z.to_nat (PSDLayerRecord.channels (fst (readPSDLayerRecord d ds))))
      (DS.rest ds)
  /\ length (PSDLayerRecord.channelInfos (fst (readPSDLayerRecord d ds)))
     = (length (PSDLayerRecord.channelInfos d)
        + Z.to_nat (PSDLayerRecord.channels (fst (readPSDLayerRecord d ds))))%nat
  /\ 0 <= PSDLayerRecord.channels (fst (readPSDLayerRecord d ds)) < 2 ^ 16
  /\ 0 <= PSDLayerRecord.extraDataFieldLength (fst (readPSDLayerRecord d ds))
     < 2 ^ 32.
Proof.
  unfold readPSDLayerRecord, bind, ret, DS.readUInt32, DS.readUInt16,
    DS.readUInt8.
  pose proof (rest_readUInt 4 ds) as H1.
  destruct (DS.readUInt 4 ds) as [top ds1]. cbn [snd] in H1.
  pose proof (rest_readUInt 4 ds1) as H2.
  destruct (DS.readUInt 4 ds1) as [left ds2]. cbn [snd] in H2.
  pose proof (rest_readUInt 4 ds2) as H3.
  destruct (DS.readUInt 4 ds2) as [bottom ds3]. cbn [snd] in H3.
  pose proof (rest_readUInt 4 ds3) as H4.
  destruct (DS.readUInt 4 ds3) as [right ds4]. cbn [snd] in H4.
  pose proof (rest_readUInt 2 ds4) as H5.
  pose proof (readUInt_range 2 ds4 ltac:(lia)) as Hch.
  destruct (DS.readUInt 2 ds4) as [channels ds5]. cbn [fst snd] in H5, Hch.
  destruct (readChannelInfos_spec (Z.to_nat channels)
              (PSDLayerRecord.channelInfos d) ds5) as [H6 H6'].
  destruct (readChannelInfos (Z.to_nat channels) _ ds5) as [infos ds6].
  cbn [fst snd] in H6, H6'.
  pose proof (rest_readUInt 4 ds6) as H7.
  destruct (DS.readUInt 4 ds6) as [signature ds7]. cbn [snd] in H7.
  destruct (Z.eqb_spec signature PSDSignature8BIM) as [->|Hne]; cbn [negb].
  2:{ cbn [fst PSDLayerRecord.signature]. done. }
  pose proof (rest_readUInt 4 ds7) as H8.
  destruct (DS.readUInt 4 ds7) as [blendModeKey ds8]. cbn [snd] in H8.
  pose proof (rest_readUInt 1 ds8) as H9.
  destruct (DS.readUInt 1 ds8) as [opacity ds9]. cbn [snd] in H9.
  pose proof (rest_readUInt 1 ds9) as H10.
  destruct (DS.readUInt 1 ds9) as [clipping ds10]. cbn [snd] in H10.
  pose proof (rest_readUInt 1 ds10) as H11.
  destruct (DS.readUInt 1 ds10) as [flags ds11]. cbn [snd] in H11.
  pose proof (rest_readUInt 1 ds11) as H12.
  destruct (DS.readUInt 1 ds11) as [filler ds12]. cbn [snd] in H12.
  pose proof (rest_readUInt 4 ds12) as H13.
  pose proof (readUInt_range 4 ds12 ltac:(lia)) as Hextra.
  destruct (DS.readUInt 4 ds12) as [extra ds13]. cbn [fst snd] in H13, Hextra.
  cbn [fst snd PSDLayerRecord.signature PSDLayerRecord.channels
       PSDLayerRecord.channelInfos PSDLayerRecord.extraDataFieldLength].
  intros _. repeat split; try done; try lia.
  rewrite H13, H12, H11, H10, H9, H8, H7, H6, H5, H4, H3, H2, H1, !drop_drop.
  f_equal. change (Z.to_nat 4) with 4%nat. change (Z.to_nat 2) with 2%nat.
  change (Z.to_nat 1) with 1%nat. lia.
Qed.

(** X10. Reading a layer record with the signature [8BIM] moves the
    cursor by 34 bytes and 6 per channel descriptor, the size [main]
    accounts for it when the record it reads into has no descriptors
    yet, or to the end of the stream when the stream ends before that;
    the record receives as many descriptors as its channel count
    says. *)
Theorem readPSDLayerRecord_valid_signature d ds :
  PSDLayerRecord.signature (fst (readPSDLayerRecord d ds)) = PSDSignature8BIM ->
  DS.rest (snd (readPSDLayerRecord d ds))
  = drop (34 + 6 * Z.to_nat (PSDLayerRecord.channels (fst (readPSDLayerRecord d ds))))
      (DS.rest ds)
  /\ length (PSDLayerRecord.channelInfos (fst (readPSDLayerRecord d ds)))
     = (length (PSDLayerRecord.channelInfos d)
        + Z.to_nat (PSDLayerRecord.channels (fst (readPSDLayerRecord d ds))))%nat
  /\ 0 <= PSDLayerRecord.channels (fst (readPSDLayerRecord d ds)) < 2 ^ 16
  /\ 0 <= PSDLayerRecord.extraDataFieldLength (fst (readPSDLayerRecord d ds))
     < 2 ^ 32.
Proof. apply readPSDLayerRecord_read. Qed.

Lemma readPSDLayerRecord_valid_signature_witness :
  DS.rest
    (snd (readPSDLayerRecord demoRecord
            (DS.mk (hex [0; 0; 0; 0; 0; 0; 0; 0; 0; 0; 0; 1; 0; 0; 0; 1;
                         0; 1; 0; 0; 0; 0; 0; 6;
                         0x38; 0x42; 0x49; 0x4D; 0x6E; 0x6F; 0x72; 0x6D;
                         255; 0; 0; 0; 0; 0; 0; 0; 9; 9]) true)))
  = hex [9; 9].
Proof.
  refine (eq_trans
            (proj1 (readPSDLayerRecord_valid_signature demoRecord
                      (DS.mk (hex [0; 0; 0; 0; 0; 0; 0; 0; 0; 0; 0; 1; 0; 0; 0; 1;
                                   0; 1; 0; 0; 0; 0; 0; 6;
                                   0x38; 0x42; 0x49; 0x4D; 0x6E; 0x6F; 0x72; 0x6D;
                                   255; 0; 0; 0; 0; 0; 0; 0; 9; 9]) true) _)) _).
  - reflexivity.
  - reflexivity.
Defined.

(** X11. The global layer mask info: reading an absent one (length 0)
    moves the cursor by its four length bytes and nothing else; reading
    one that declares 13 bytes or more (and fewer than 2^31) moves it
    by the length bytes and the length read; in either case the cursor
    stops at the end of the stream when the stream ends before that. *)
Theorem readPSDGlobalLayerMaskInfo_cursor d ds :
  let g := fst (readPSDGlobalLayerMaskInfo d ds) in
  let ds' := snd (readPSDGlobalLayerMaskInfo d ds) in
  (PSDGlobalLayerMaskInfo.length g = 0 ->
     DS.rest ds' = drop 4 (DS.rest ds))
  /\ (PSDGlboalLayerMaskInfoDataOffset <= PSDGlobalLayerMaskInfo.length g < 2 ^ 31 ->
      DS.rest ds'
      = drop (4 + Z.to_nat (PSDGlobalLayerMaskInfo.length g)) (DS.rest ds)).
Proof.
  cbv zeta. unfold readPSDGlobalLayerMaskInfo, bind, ret, skip, DS.readUInt32,
    DS.readUInt16, DS.readUInt8, PSDGlboalLayerMaskInfoDataOffset.
  pose proof (rest_readUInt 4 ds) as H1.
  pose proof (readUInt_range 4 ds ltac:(lia)) as Hr.
  destruct (DS.readUInt 4 ds) as [len ds1]. cbn [fst snd] in H1, Hr.
  destruct (Z.eqb_spec len 0) as [->|Hne].
  { cbn [fst snd PSDGlobalLayerMaskInfo.length]. split; (done || lia). }
  pose proof (rest_readUInt 2 ds1) as H2.
  destruct (DS.readUInt 2 ds1) as [v2 ds2]. cbn [snd] in H2.
  pose proof (rest_readUInt 2 ds2) as H3.
  destruct (DS.readUInt 2 ds2) as [v3 ds3]. cbn [snd] in H3.
  pose proof (rest_readUInt 2 ds3) as H4.
  destruct (DS.readUInt 2 ds3) as [v4 ds4]. cbn [snd] in H4.
  pose proof (rest_readUInt 2 ds4) as H5.
  destruct (DS.readUInt 2 ds4) as [v5 ds5]. cbn [snd] in H5.
  pose proof (rest_readUInt 2 ds5) as H6.
  destruct (DS.readUInt 2 ds5) as [v6 ds6]. cbn [snd] in H6.
  pose proof (rest_readUInt 2 ds6) as H7.
  destruct (DS.readUInt 2 ds6) as [v7 ds7]. cbn [snd] in H7.
  pose proof (rest_readUInt 1 ds7) as H8.
  destruct (DS.readUInt 1 ds7) as [v8 ds8]. cbn [snd] in H8.
  cbn [fst snd PSDGlobalLayerMaskInfo.length].
  pose proof (wrap32_range (len - 13)) as Hwrap.
  rewrite rest_skipRawData, H8, H7, H6, H5, H4, H3, H2, H1, !drop_drop by lia.
  change (Z.to_nat 4) with 4%nat. change (Z.to_nat 2) with 2%nat.
  change (Z.to_nat 1) with 1%nat.
  split.
  - lia.
  - intros Hlen. f_equal. unfold wrap32. rewrite Z.mod_small by lia. lia.
Qed.

Lemma readPSDGlobalLayerMaskInfo_cursor_witness :
  DS.rest (snd (readPSDGlobalLayerMaskInfo demoGlobal
                  (DS.mk (hex ([0; 0; 0; 14] ++ replicate 14 7 ++ [9; 9])) true)))
  = hex [9; 9].
Proof.
  refine (eq_trans
            (proj2 (readPSDGlobalLayerMaskInfo_cursor demoGlobal
                      (DS.mk (hex ([0; 0; 0; 14] ++ replicate 14 7 ++ [9; 9])) true))
               _) _).
  - vm_compute. split; [discriminate|reflexivity].
  - reflexivity.
Defined.

(** ** Byte accounting of the walker *)

Lemma wrap32_add_l a b : wrap32 (wrap32 a + b) = wrap32 (a + b).
Proof. unfold wrap32. apply Zplus_mod_idemp_l. Qed.

Lemma readLayerRecords_new uR count : forall layer records c ds,
  0 <= c < 2 ^ 32 ->
  exists new,
    fst (fst (readLayerRecords uR count layer records c ds)) = records ++ new
    /\ length new = count
    /\ snd (fst (readLayerRecords uR count layer records c ds))
       = wrap32 (c + sumZ (map recordBytes new))
    /\ Forall (fun r => PSDLayerRecord.signature r = PSDSignature8BIM ->
                        0 <= PSDLayerRecord.extraDataFieldLength r) new
    /\ (Forall (fun r => PSDLayerRecord.signature r = PSDSignature8BIM
                         /\ PSDLayerRecord.extraDataFieldLength r < 2 ^ 31) new ->
        DS.rest (snd (readLayerRecords uR count layer records c ds))
        = drop (Z.to_nat (sumZ (map recordBytes new))) (DS.rest ds)).
Proof.
  induction count as [|count IH]; intros layer records c ds Hc.
  - exists []. cbn. rewrite app_nil_r, Z.add_0_r.
    repeat split; try done. unfold wrap32. by rewrite Z.mod_small.
  - cbn [readLayerRecords]. unfold bind, skip.
    pose proof (readPSDLayerRecord_read (freshRecord uR layer) ds)
      as Hvalid.
    destruct (readPSDLayerRecord (freshRecord uR layer) ds) as [r ds1].
    cbn [fst snd] in Hvalid.
    destruct (IH (S layer) (records ++ [r])
                (wrap32
                   (wrap32 (c + (PSDLayerRecordSize
                                 + PSDChannelInfosize
                                   * Z.of_nat (length (PSDLayerRecord.channelInfos r))))
                    + PSDLayerRecord.extraDataFieldLength r))
                (DS.skipRawData (PSDLayerRecord.extraDataFieldLength r) ds1)
                (wrap32_range _))
      as (new & Hrecs & Hlen & Hcons & Hpos & Hrest).
    exists (r :: new). rewrite Hrecs, Hcons, <- app_assoc.
    cbn [app length map sumZ fold_right]. fold (sumZ (map recordBytes new)).
    repeat split.
    + by rewrite Hlen.
    + rewrite wrap32_add_l, <- Z.add_assoc, wrap32_add_l.
      f_equal. unfold recordBytes. lia.
    + constructor; [|done]. intros Hsig.
      destruct (Hvalid Hsig) as (_ & _ & _ & Hex). lia.
    + intros Hall. apply Forall_cons in Hall as [[Hsig Hextra] Hall].
      rewrite (Hrest Hall).
      destruct (Hvalid Hsig) as (Hcur & Hinfos & Hch & Hex).
      rewrite rest_skipRawData, Hcur, !drop_drop by lia.
      f_equal.
      assert (0 <= sumZ (map recordBytes new)).
      { clear - Hpos Hall. unfold sumZ.
        induction new as [|r' new IHn]; cbn [map fold_right]; [lia|].
        apply Forall_cons in Hpos as [Hr' Hpos].
        apply Forall_cons in Hall as [[Hs' _] Hall].
        specialize (IHn Hpos Hall). specialize (Hr' Hs').
        change (recordBytes r')
          with (34 + 6 * Z.of_nat (length (PSDLayerRecord.channelInfos r'))
                + PSDLayerRecord.extraDataFieldLength r').
        lia. }
      change (recordBytes r)
        with (34 + 6 * Z.of_nat (length (PSDLayerRecord.channelInfos r))
              + PSDLayerRecord.extraDataFieldLength r).
      unfold freshRecord in Hinfos. cbn [PSDLayerRecord.channelInfos length] in Hinfos.
      lia.
Qed.

(** X12. The layer-record loop of [main]: it reads as many records as it is
    asked for, and [consumedLayerInfoSize] grows, modulo 2^32, by 34
    bytes, 6 per channel descriptor and the extra-data length for each
    of them; when every record has the signature [8BIM] (and an
    extra-data length below 2^31) the cursor has moved by that many
    bytes, or stands at the end of the stream when the stream ends
    before that. *)
Theorem readLayerRecords_accounting uR count layer c ds :
  0 <= c < 2 ^ 32 ->
  let result := readLayerRecords uR count layer [] c ds in
  length (fst (fst result)) = count
  /\ snd (fst result) = wrap32 (c + sumZ (map recordBytes (fst (fst result))))
  /\ (Forall (fun r => PSDLayerRecord.signature r = PSDSignature8BIM
                       /\ PSDLayerRecord.extraDataFieldLength r < 2 ^ 31)
        (fst (fst result)) ->
      DS.rest (snd result)
      = drop (Z.to_nat (sumZ (map recordBytes (fst (fst result))))) (DS.rest ds)).
Proof.
  intros Hc. cbv zeta.
  destruct (readLayerRecords_new uR count layer [] c ds Hc)
    as (new & Hrecs & Hlen & Hcons & _ & Hrest).
  cbn [app] in Hrecs. rewrite Hrecs. auto.
Qed.

Lemma readLayerRecords_accounting_witness :
  snd (fst (readLayerRecords (fun _ => demoRecord) 1 0 [] 2
              (DS.mk (hex [0; 0; 0; 0; 0; 0; 0; 0; 0; 0; 0; 1; 0; 0; 0; 1;
                           0; 1; 0; 0; 0; 0; 0; 6;
                           0x38; 0x42; 0x49; 0x4D; 0x6E; 0x6F; 0x72; 0x6D;
                           255; 0; 0; 0; 0; 0; 0; 3; 7; 7; 7; 9]) true)))
  = 45.
Proof.
  refine (eq_trans
            (proj1 (proj2 (readLayerRecords_accounting (fun _ => demoRecord) 1 0 2
               (DS.mk (hex [0; 0; 0; 0; 0; 0; 0; 0; 0; 0; 0; 1; 0; 0; 0; 1;
                            0; 1; 0; 0; 0; 0; 0; 6;
                            0x38; 0x42; 0x49; 0x4D; 0x6E; 0x6F; 0x72; 0x6D;
                            255; 0; 0; 0; 0; 0; 0; 3; 7; 7; 7; 9]) true) _)))
            _).
  - lia.
  - reflexivity.
Defined.

Lemma rest_readRawData len ds :
  DS.rest (snd (DS.readRawData len ds)) = drop (Z.to_nat len) (DS.rest ds).
Proof.
  unfold DS.readRawData. pose proof (rest_readBlock len ds) as H.
  by destruct (DS.readBlock len ds).
Qed.

Lemma loadChannels_cursor width height infos : forall image ds image' ds',
  loadChannels width height infos image ds = (Some image', ds') ->
  Forall (fun n => 2 <= n < 2 ^ 31)
    (map PSDChannelInfo.correspondingChannelDataLength infos) ->
  DS.rest ds'
  = drop (Z.to_nat
            (sumZ (map PSDChannelInfo.correspondingChannelDataLength infos)))
      (DS.rest ds).
Proof.
  induction infos as [|info infos IH]; intros image ds image' ds' Hload Hall;
    cbn [loadChannels map sumZ fold_right] in *.
  - by injection Hload as _ <-.
  - fold (sumZ (map PSDChannelInfo.correspondingChannelDataLength infos)).
    apply Forall_cons in Hall as [Hlen Hall].
    assert (0 <= sumZ (map PSDChannelInfo.correspondingChannelDataLength infos)).
    { clear - Hall. unfold sumZ.
      induction Hall; cbn [fold_right]; lia. }
    assert (Hw : wrap32 (PSDChannelInfo.correspondingChannelDataLength info - 2)
                 = PSDChannelInfo.correspondingChannelDataLength info - 2).
    { unfold wrap32. apply Z.mod_small. lia. }
    rewrite Hw in Hload.
    pose proof (rest_readUInt 2 ds) as H1. unfold DS.readUInt16 in Hload.
    destruct (DS.readUInt 2 ds) as [mode ds1]. cbn [snd] in H1.
    destruct (negb (DS.ok ds1)); [discriminate|].
    pose proof (rest_readRawData
                  (PSDChannelInfo.correspondingChannelDataLength info - 2) ds1)
      as H2.
    destruct (DS.readRawData _ ds1) as [raw ds2]. cbn [snd] in H2.
    assert (Hgoal : drop (Z.to_nat
                (PSDChannelInfo.correspondingChannelDataLength info
                 + sumZ (map PSDChannelInfo.correspondingChannelDataLength infos)))
              (DS.rest ds)
            = drop (Z.to_nat
                (sumZ (map PSDChannelInfo.correspondingChannelDataLength infos)))
                (DS.rest ds2)).
    { rewrite H2, H1, !drop_drop. f_equal. change (Z.to_nat 2) with 2%nat. lia. }
    rewrite Hgoal.
    destruct (mode =? 0); [by eapply IH|].
    destruct (mode =? 1); [|discriminate].
    destruct (negb _); [discriminate|]. by eapply IH.
Qed.

Lemma sumChannelImageData_fold infos : forall a,
  fold_left
    (fun acc' info =>
       wrap32 (acc' + PSDChannelInfo.correspondingChannelDataLength info))
    infos (wrap32 a)
  = wrap32 (a + sumZ (map PSDChannelInfo.correspondingChannelDataLength infos)).
Proof.
  induction infos as [|info infos IH]; intros a; cbn [fold_left map sumZ fold_right].
  - by rewrite Z.add_0_r.
  - fold (sumZ (map PSDChannelInfo.correspondingChannelDataLength infos)).
    rewrite wrap32_add_l, IH. f_equal. lia.
Qed.

Lemma sumChannelImageData_from recs : forall a,
  fold_left
    (fun acc record =>
       fold_left
         (fun acc' info =>
            wrap32 (acc' + PSDChannelInfo.correspondingChannelDataLength info))
         (PSDLayerRecord.channelInfos record) acc)
    recs (wrap32 a)
  = wrap32 (a + declaredChannelBytes recs).
Proof.
  unfold declaredChannelBytes.
  induction recs as [|r recs IH]; intros a; cbn [fold_left map sumZ fold_right].
  - by rewrite Z.add_0_r.
  - fold (sumZ (map (fun r => sumZ (channelLengths r)) recs)).
    rewrite sumChannelImageData_fold, IH. f_equal.
    unfold channelLengths. lia.
Qed.

Lemma sumChannelImageData_declared recs :
  sumChannelImageData recs = wrap32 (declaredChannelBytes recs).
Proof.
  unfold sumChannelImageData. change 0 with (wrap32 0) at 1.
  by rewrite sumChannelImageData_from.
Qed.


(** X13. The image loop of [main], for records whose extent is not
    negative and whose pixel count is a value of an [int]: when every
    layer loads and every channel declares a data length of at least 2
    (the compression mode) and below 2^31, the cursor has moved by the
    sum of the declared channel data lengths, or stands at the end of
    the stream when the stream ends before that, and
    [channelImageDataSize] is that sum modulo 2^32. *)
Theorem loadLayers_consumes_declared uP recs : forall i saved ds saved' ds',
  loadLayers uP i recs saved ds = (saved', true, ds') ->
  Forall extentFits recs ->
  Forall (fun r => Forall (fun n => 2 <= n < 2 ^ 31) (channelLengths r)) recs ->
  DS.rest ds' = drop (Z.to_nat (declaredChannelBytes recs)) (DS.rest ds)
  /\ sumChannelImageData recs = wrap32 (declaredChannelBytes recs).
Proof.
  intros i saved ds saved' ds' Hload _ Hall.
  split; [|apply sumChannelImageData_declared].
  revert i saved ds Hload.
  unfold declaredChannelBytes.
  induction recs as [|r recs IH]; intros i saved ds Hload;
    cbn [loadLayers map sumZ fold_right] in *.
  - by injection Hload as _ <-.
  - fold (sumZ (map (fun r => sumZ (channelLengths r)) recs)).
    apply Forall_cons in Hall as [Hr Hall].
    assert (Hnonneg : forall l, Forall (fun n => 2 <= n < 2 ^ 31) l -> 0 <= sumZ l).
    { intros l Hl. unfold sumZ. induction Hl; cbn [fold_right]; lia. }
    assert (0 <= sumZ (map (fun r => sumZ (channelLengths r)) recs)).
    { clear - Hall Hnonneg. unfold sumZ at 1.
      induction Hall as [|r' recs' Hr' _ IHr]; cbn [map fold_right]; [lia|].
      apply Hnonneg in Hr'. lia. }
    pose proof (Hnonneg _ Hr).
    unfold loadPSDLayer in Hload.
    destruct (loadChannels _ _ (PSDLayerRecord.channelInfos r) _ ds)
      as [[image|] ds1] eqn:Hch; [|discriminate].
    apply loadChannels_cursor in Hch; [|exact Hr].
    fold (channelLengths r) in Hch.
    rewrite (IH Hall _ _ _ Hload), Hch, drop_drop. f_equal. lia.
Qed.

Lemma loadLayers_consumes_declared_witness :
  sumChannelImageData
    [PSDLayerRecord.mk 0 0 2 2 1 [PSDChannelInfo.mk 0 6] PSDSignature8BIM
       0 0 0 0 0 0]
  = wrap32
      (declaredChannelBytes
         [PSDLayerRecord.mk 0 0 2 2 1 [PSDChannelInfo.mk 0 6] PSDSignature8BIM
            0 0 0 0 0 0]).
Proof.
  eapply proj2,
    (loadLayers_consumes_declared (fun _ => [])
       [PSDLayerRecord.mk 0 0 2 2 1 [PSDChannelInfo.mk 0 6] PSDSignature8BIM
          0 0 0 0 0 0]
       0%nat [] (DS.mk (hex [0; 0; 10; 20; 30; 40; 9]) true)).
  - vm_compute. reflexivity.
  - repeat constructor; vm_compute; discriminate.
  - repeat constructor; cbn; lia.
Defined.
(** ** Document walker: the header and the layer count *)

Lemma byte_of_unsigned (b : byte) v : byte.unsigned b = v -> b = byte.of_Z v.
Proof. intros <-. by rewrite byte.of_Z_unsigned. Qed.

(** A 32-bit or 16-bit read that yields a non-zero value was a full read
    of the bytes that spell it. *)
Lemma readUInt32_bytes ds b0 b1 b2 b3 :
  0 <= b0 < 256 -> 0 <= b1 < 256 -> 0 <= b2 < 256 -> 0 <= b3 < 256 ->
  0 < ((b0 * 256 + b1) * 256 + b2) * 256 + b3 ->
  fst (DS.readUInt32 ds) = ((b0 * 256 + b1) * 256 + b2) * 256 + b3 ->
  take 4 (DS.rest ds) = hex [b0; b1; b2; b3].
Proof.
  intros H0 H1 H2 H3 Hpos.
  unfold DS.readUInt32, DS.readUInt, DS.readBlock. cbn [fst].
  destruct (DS.rest ds) as [|a0 [|a1 [|a2 [|a3 l]]]].
  1-4: match goal with |- context [?a =? 4] =>
      destruct (Z.eqb_spec a 4) as [E|_] end;
    [rewrite length_take in E; cbn [length] in E; lia|lia].
  rewrite Z.min_l by (cbn [length]; lia).
  change (Z.to_nat 4) with 4%nat. cbn [take]. rewrite take_0. cbn [length].
  change (Z.of_nat 4 =? 4) with true. cbv iota.
  unfold DS.bigEndian, hex. cbn [fold_left map].
  pose proof (byte.unsigned_range a0). pose proof (byte.unsigned_range a1).
  pose proof (byte.unsigned_range a2). pose proof (byte.unsigned_range a3).
  change (2 ^ 8) with 256 in *. intros Hv.
  rewrite (byte_of_unsigned a0 b0), (byte_of_unsigned a1 b1),
    (byte_of_unsigned a2 b2), (byte_of_unsigned a3 b3) by lia.
  done.
Qed.

Lemma readUInt16_bytes ds b0 b1 :
  0 <= b0 < 256 -> 0 <= b1 < 256 -> 0 < b0 * 256 + b1 ->
  fst (DS.readUInt16 ds) = b0 * 256 + b1 ->
  take 2 (DS.rest ds) = hex [b0; b1].
Proof.
  intros H0 H1 Hpos.
  unfold DS.readUInt16, DS.readUInt, DS.readBlock. cbn [fst].
  destruct (DS.rest ds) as [|a0 [|a1 l]].
  1-2: match goal with |- context [?a =? 2] =>
      destruct (Z.eqb_spec a 2) as [E|_] end;
    [rewrite length_take in E; cbn [length] in E; lia|lia].
  rewrite Z.min_l by (cbn [length]; lia).
  change (Z.to_nat 2) with 2%nat. cbn [take]. rewrite take_0. cbn [length].
  change (Z.of_nat 2 =? 2) with true. cbv iota.
  unfold DS.bigEndian, hex. cbn [fold_left map].
  pose proof (byte.unsigned_range a0). pose proof (byte.unsigned_range a1).
  change (2 ^ 8) with 256 in *. intros Hv.
  rewrite (byte_of_unsigned a0 b0), (byte_of_unsigned a1 b1) by lia.
  done.
Qed.

(** X14. A file that does not begin with the six bytes [8BPS] and
    version 1, among them every file shorter than six bytes, is
    rejected at the header: [main] returns -1, saves no layer image,
    and reaches neither the length comparison nor the scanner. *)
Theorem main_rejects_bad_header uR uP uG uB file :
  take 6 file <> hex [0x38; 0x42; 0x50; 0x53; 0; 1] ->
  main uR uP uG uB file = mkMainResult (-1) [] false None.
Proof.
  intros Hbad. unfold main, walkLayers, readPSDFileHeaderSection, bind, ret.
  pose proof (readUInt32_bytes (DS.mk file true) 0x38 0x42 0x50 0x53) as H4.
  pose proof (rest_readUInt 4 (DS.mk file true)) as Hrest.
  unfold DS.readUInt32 in *.
  destruct (DS.readUInt 4 (DS.mk file true)) as [signature ds1].
  cbn [fst snd DS.rest] in H4, Hrest.
  pose proof (readUInt16_bytes ds1 0 1) as H2.
  destruct (DS.readUInt16 ds1) as [version ds2]. cbn [fst] in H2.
  destruct (readReserved ds2) as [reserved ds3].
  destruct (DS.readUInt16 ds3) as [channels ds4].
  destruct (DS.readUInt 4 ds4) as [height ds5].
  destruct (DS.readUInt 4 ds5) as [width ds6].
  destruct (DS.readUInt16 ds6) as [depth ds7].
  destruct (DS.readUInt16 ds7) as [colorMode ds8].
  cbn [PSDFileHeaderSection.signature PSDFileHeaderSection.version].
  destruct (Z.eqb_spec signature PSDSignature8BPS) as [Hsig|_]; [|done].
  destruct (Z.eqb_spec version 1) as [Hver|_]; [|done].
  exfalso. apply Hbad.
  change 6%nat with (4 + 2)%nat. rewrite <- (take_take_drop file 4 2).
  change (Z.to_nat 4) with 4%nat in Hrest.
  rewrite <- Hrest, H4, H2 by (done || lia). done.
Qed.

Lemma main_rejects_bad_header_witness :
  main (fun _ => demoRecord) (fun _ => []) demoGlobal demoBlock
    (hex [0x38; 0x42; 0x50; 0x53; 0])
  = mkMainResult (-1) [] false None.
Proof.
  apply (main_rejects_bad_header (fun _ => demoRecord) (fun _ => [])
           demoGlobal demoBlock (hex [0x38; 0x42; 0x50; 0x53; 0])).
  vm_compute. discriminate.
Defined.

Lemma readInt16_range ds : -32768 <= fst (DS.readInt16 ds) <= 32767.
Proof.
  unfold DS.readInt16, DS.readUInt16.
  destruct (DS.readUInt 2 ds) as [v ds']. cbn [fst].
  unfold toInt16, wrap16. cbv zeta.
  pose proof (Z.mod_pos_bound v (2 ^ 16) ltac:(lia)) as H.
  destruct (Z.ltb_spec (v mod 2 ^ 16) (2 ^ 15)); lia.
Qed.

(** X15. When every layer loads, [main] has read as many layer records
    as the absolute value of the layer count says, at most 32768 (the
    count -32768 gives 32768 records), and has saved one image for each
    of them. *)
Theorem walkLayers_layer_count uR uP file w :
  walkLayers uR uP file = inr w ->
  -32768 <= PSDLayerInfo.layerCount (layerInfo w) <= 32767
  /\ length (records w)
     = Z.to_nat (Z.abs (PSDLayerInfo.layerCount (layerInfo w)))
  /\ length (images w) = length (records w).
Proof.
  unfold walkLayers. intros H.
  destruct (readPSDFileHeaderSection _) as [fileHeader ds1].
  destruct (negb _); [discriminate|].
  destruct (negb _); [discriminate|].
  destruct (readPSDColorModeDataSection ds1) as [? ds2].
  destruct (readPSDImageResouceSection ds2) as [? ds3].
  destruct (readPSDLayerAndMaskInfoSection ds3) as [lamiLength ds4].
  assert (-32768 <= PSDLayerInfo.layerCount (fst (readPSDLayerInfo ds4)) <= 32767)
    as Hcount.
  { unfold readPSDLayerInfo, bind, ret.
    destruct (DS.readUInt32 ds4) as [len d].
    pose proof (readInt16_range d). by destruct (DS.readInt16 d). }
  destruct (readPSDLayerInfo ds4) as [info ds5]. cbn [fst] in Hcount.
  destruct (readLayerRecords_new uR
              (Z.to_nat (wrap16 (Z.abs (PSDLayerInfo.layerCount info))))
              0 [] 2 ds5 ltac:(lia)) as (new & Hnew & Hlen & _).
  destruct (readLayerRecords uR _ 0 [] 2 ds5) as [[recs consumed] ds6].
  cbn [fst snd] in Hnew. cbn [app] in Hnew. subst recs.
  destruct (loadLayers uP 0 new [] ds6) as [[saved [|]] ds7] eqn:Hload;
    [|discriminate].
  apply loadLayers_saved in Hload. injection H as <-.
  cbn [layerInfo records images]. cbn [length] in Hload.
  unfold wrap16 in Hlen. rewrite Z.mod_small in Hlen by lia.
  repeat split; lia.
Qed.

Lemma walkLayers_layer_count_witness :
  exists w,
    walkLayers (fun _ => demoRecord) (fun _ => []) (oneLayerDocument 48) = inr w
    /\ length (records w) = 1%nat /\ length (images w) = 1%nat.
Proof.
  eexists. split; [vm_compute; reflexivity|].
  match goal with
  | |- length (records ?w) = _ /\ _ =>
      destruct (walkLayers_layer_count (fun _ => demoRecord) (fun _ => [])
                  (oneLayerDocument 48) w) as (_ & Hr & Hi);
        [vm_compute; reflexivity|]
  end.
  split; [exact Hr|]. rewrite Hi. exact Hr.
Defined.

(** ** Scanner: what it depends on and what it keeps *)

Lemma readPSDAdditionalLayerInfo_indep u1 u2 ds :
  snd (readPSDAdditionalLayerInfo u1 ds) = snd (readPSDAdditionalLayerInfo u2 ds)
  /\ PSDAdditionalLayerInfo.signature (fst (readPSDAdditionalLayerInfo u1 ds))
     = PSDAdditionalLayerInfo.signature (fst (readPSDAdditionalLayerInfo u2 ds))
  /\ (PSDAdditionalLayerInfo.signature (fst (readPSDAdditionalLayerInfo u1 ds))
      = PSDSignature8BIM ->
      fst (readPSDAdditionalLayerInfo u1 ds) = fst (readPSDAdditionalLayerInfo u2 ds)).
Proof.
  unfold readPSDAdditionalLayerInfo, bind, ret, DS.readUInt32.
  destruct (DS.readUInt 4 ds) as [signature ds1].
  destruct (Z.eqb_spec signature PSDSignature8BIM) as [->|Hne]; cbn [negb andb].
  - destruct (DS.readUInt 4 ds1) as [code ds2].
    by destruct (DS.readUInt 4 ds2) as [len ds3].
  - destruct (negb (signature =? PSDSignature8B64)).
    + cbn [fst snd PSDAdditionalLayerInfo.signature]. by repeat split.
    + destruct (DS.readUInt 4 ds1) as [code ds2].
      destruct (DS.readUInt 4 ds2) as [len ds3].
      cbn [fst snd PSDAdditionalLayerInfo.signature]. by repeat split.
Qed.

Lemma scanLoop_indep u1 u2 ds remBytes :
  scanLoop u1 ds remBytes = scanLoop u2 ds remBytes.
Proof.
  funelim (scanLoop u1 ds remBytes); rewrite (scanLoop_step u2);
    repeat match goal with
      | H : Z_gt_dec _ _ = _ |- _ => rewrite H
      | H : Z_lt_dec _ _ = _ |- _ => rewrite H
      | H : DS.atEnd _ = _ |- _ => rewrite H
      end; try reflexivity.
  all: match goal with
       | H : readPSDAdditionalLayerInfo ?u ?ds = _ |- _ =>
           destruct (readPSDAdditionalLayerInfo_indep u u2 ds) as (Hs & Hsig & Hfst);
           rewrite H in Hs, Hsig, Hfst; cbn [fst snd] in Hs, Hsig, Hfst
       end.
  all: destruct (readPSDAdditionalLayerInfo u2 ds) as [block2 ds2];
    cbn [fst snd] in *; subst ds2.
  - rewrite <- (Hfst ltac:(assumption)).
    match goal with H : Z.eq_dec _ _ = _ |- _ => rewrite H end.
    match goal with IH : forall _, _ |- _ => apply IH end.
  - rewrite <- Hsig.
    match goal with H : Z.eq_dec _ _ = _ |- _ => by rewrite H end.
Qed.

Lemma readPSDGlobalLayerMaskInfo_indep u1 u2 ds :
  snd (readPSDGlobalLayerMaskInfo u1 ds) = snd (readPSDGlobalLayerMaskInfo u2 ds)
  /\ PSDGlobalLayerMaskInfo.length (fst (readPSDGlobalLayerMaskInfo u1 ds))
     = PSDGlobalLayerMaskInfo.length (fst (readPSDGlobalLayerMaskInfo u2 ds)).
Proof.
  unfold readPSDGlobalLayerMaskInfo, bind, ret, skip.
  destruct (DS.readUInt32 ds) as [len ds1].
  destruct (len =? 0); [done|].
  repeat match goal with
    | |- context [DS.readUInt16 ?d] => destruct (DS.readUInt16 d)
    | |- context [DS.readUInt8 ?d] => destruct (DS.readUInt8 d)
    end.
  done.
Qed.

(** X16. The objects that the scanner and [main] declare without an
    initialiser and then read into, the block header and the global
    layer mask record, are never looked at before they are read:
    neither the scan nor what [main] returns depends on what they
    held. *)
Theorem main_ignores_indeterminate uR uP uG1 uG2 uB1 uB2 file :
  (forall ds remBytes, scanLoop uB1 ds remBytes = scanLoop uB2 ds remBytes)
  /\ main uR uP uG1 uB1 file = main uR uP uG2 uB2 file.
Proof.
  split; [intros; apply scanLoop_indep|].
  unfold main. destruct (walkLayers uR uP file) as [[code saved]|w]; [done|].
  unfold finishWalk, scannerCall, scanAdditionalLayerInfo.
  destruct (readPSDGlobalLayerMaskInfo_indep uG1 uG2 (stream w)) as [Hs Hl].
  destruct (readPSDGlobalLayerMaskInfo uG1 (stream w)) as [g1 d1].
  destruct (readPSDGlobalLayerMaskInfo uG2 (stream w)) as [g2 d2].
  cbn [fst snd] in Hs, Hl. subst d2. rewrite Hl.
  by rewrite (scanLoop_indep uB1 uB2).
Qed.

Lemma paddingTo_aligned length : (length + paddingTo 4 length) mod 4 = 0.
Proof.
  unfold paddingTo. destruct (Z.eqb_spec (length mod 4) 0) as [H|H].
  - by rewrite Z.add_0_r.
  - pose proof (Z.mod_pos_bound length 4 ltac:(lia)) as Hb.
    pose proof (Z.div_mod length 4 ltac:(lia)) as Hd.
    replace (length + (4 - length mod 4)) with ((length / 4 + 1) * 4) by lia.
    apply Z.mod_mul. lia.
Qed.

Lemma blockConsumed_aligned length :
  0 <= blockConsumed length /\ blockConsumed length mod 4 = 0.
Proof.
  unfold blockConsumed, PSDAdditionalLayerInfoSize. split.
  - apply wrap32_range.
  - assert (Hx : (length + paddingTo 4 length + 12) mod 4 = 0).
    { replace (length + paddingTo 4 length + 12)
        with (length + paddingTo 4 length + 3 * 4) by lia.
      rewrite Z.mod_add by lia. apply paddingTo_aligned. }
    unfold wrap32. generalize dependent (length + paddingTo 4 length + 12).
    intros x Hx.
    pose proof (Z.div_mod x (2 ^ 32) ltac:(lia)).
    pose proof (Z.div_mod x 4 ltac:(lia)).
    replace (x mod 2 ^ 32) with ((x / 4 - 2 ^ 30 * (x / 2 ^ 32)) * 4) by lia.
    apply Z.mod_mul. lia.
Qed.

Lemma readPSDAdditionalLayerInfo_forward d ds :
  exists m, DS.rest (snd (readPSDAdditionalLayerInfo d ds)) = drop m (DS.rest ds).
Proof.
  unfold readPSDAdditionalLayerInfo, bind, ret, DS.readUInt32.
  pose proof (rest_readUInt 4 ds) as R1.
  destruct (DS.readUInt 4 ds) as [sig d1]. cbn [snd] in R1.
  destruct (_ && _); [by exists 4%nat|].
  pose proof (rest_readUInt 4 d1) as R2.
  destruct (DS.readUInt 4 d1) as [code d2]. cbn [snd] in R2.
  pose proof (rest_readUInt 4 d2) as R3.
  destruct (DS.readUInt 4 d2) as [len d3]. cbn [snd] in R3.
  cbn [snd]. rewrite R3, R2, R1, !drop_drop. by eexists.
Qed.

(** X17. Through a scan the budget never grows, what has been taken from it
    is a multiple of 4, and the cursor only moves forward. *)
Theorem scanLoop_keeps uninit ds remBytes :
  finalRemBytes (scanLoop uninit ds remBytes) <= remBytes
  /\ (remBytes - finalRemBytes (scanLoop uninit ds remBytes)) mod 4 = 0
  /\ exists n, DS.rest (finalStream (scanLoop uninit ds remBytes))
               = drop n (DS.rest ds).
Proof.
  funelim (scanLoop uninit ds remBytes); cbn [finalRemBytes finalStream];
    rewrite ?Z.sub_diag.
  1-3: repeat split; [lia|by exists 0%nat].
  - destruct H as (Hle & Hmod & k & Hn).
    destruct (blockConsumed_aligned
                (PSDAdditionalLayerInfo.length additionalLayerInfo)) as [Hpos Hal].
    destruct (readPSDAdditionalLayerInfo_forward uninit ds) as [m Hm].
    rewrite Hread in Hm. cbn [snd] in Hm.
    repeat split.
    + lia.
    + replace (remBytes - finalRemBytes _)
        with ((remBytes
               - blockConsumed (PSDAdditionalLayerInfo.length additionalLayerInfo)
               - finalRemBytes
                   (scanLoop uninit
                      (DS.skipRawData
                         (wrap32 (PSDAdditionalLayerInfo.length additionalLayerInfo
                                  + paddingTo 4 (PSDAdditionalLayerInfo.length
                                                   additionalLayerInfo)))
                         ds1)
                      (remBytes
                       - blockConsumed (PSDAdditionalLayerInfo.length
                                          additionalLayerInfo))))
              + blockConsumed (PSDAdditionalLayerInfo.length additionalLayerInfo))
        by lia.
      rewrite Z.add_mod, Hmod, Hal by lia. reflexivity.
    + rewrite Hn, rest_skipRawData, Hm, !drop_drop by apply wrap32_range.
      by eexists.
  - destruct (readPSDAdditionalLayerInfo_forward uninit ds) as [m Hm].
    rewrite Hread in Hm. cbn [snd] in Hm.
    repeat split; [lia|by exists m].
Qed.
(** ** Scanner: a sequence of well-formed blocks *)

Lemma bigEndian_uint32 v :
  0 <= v < 2 ^ 32 -> DS.bigEndian (AdditionalBlock.uint32 v) = v.
Proof.
  intros Hv. unfold DS.bigEndian, AdditionalBlock.uint32. cbn [fold_left].
  rewrite !byte.unsigned_of_Z. unfold byte.wrap.
  change (2 ^ 24) with (2 ^ 8 * (2 ^ 8 * 2 ^ 8)).
  change (2 ^ 16) with (2 ^ 8 * 2 ^ 8).
  rewrite <- !Z.div_div by lia. change (2 ^ 8) with 256.
  pose proof (Z.div_mod v 256 ltac:(lia)).
  pose proof (Z.div_mod (v / 256) 256 ltac:(lia)).
  pose proof (Z.div_mod (v / 256 / 256) 256 ltac:(lia)).
  pose proof (Z.mod_pos_bound v 256 ltac:(lia)).
  pose proof (Z.mod_pos_bound (v / 256) 256 ltac:(lia)).
  pose proof (Z.mod_pos_bound (v / 256 / 256) 256 ltac:(lia)).
  rewrite (Z.mod_small (v / 256 / 256 / 256)); [lia|].
  pose proof (Z.div_mod (v / 256 / 256 / 256) 256 ltac:(lia)).
  pose proof (Z.mod_pos_bound (v / 256 / 256 / 256) 256 ltac:(lia)).
  lia.
Qed.

Lemma readUInt32_uint32 v r ok :
  0 <= v < 2 ^ 32 ->
  DS.readUInt32 (DS.mk (AdditionalBlock.uint32 v ++ r) ok) = (v, DS.mk r ok).
Proof.
  intros Hv. unfold DS.readUInt32, DS.readUInt, DS.readBlock.
  cbn [DS.rest DS.ok].
  assert (Hlen : 4 <= Z.of_nat (length (AdditionalBlock.uint32 v ++ r))).
  { rewrite length_app. cbn [AdditionalBlock.uint32 length]. lia. }
  rewrite Z.min_l by done. change (Z.to_nat 4) with 4%nat.
  destruct (Z.leb_spec 4 (Z.of_nat (length (AdditionalBlock.uint32 v ++ r))));
    [|lia].
  rewrite andb_true_r.
  change (take 4 (AdditionalBlock.uint32 v ++ r)) with (AdditionalBlock.uint32 v).
  change (drop 4 (AdditionalBlock.uint32 v ++ r)) with r.
  cbn [length AdditionalBlock.uint32]. change (Z.of_nat 4 =? 4) with true.
  cbv iota. fold (AdditionalBlock.uint32 v). by rewrite bigEndian_uint32.
Qed.

Lemma paddingTo_range length : 0 <= paddingTo 4 length <= 3.
Proof.
  unfold paddingTo. pose proof (Z.mod_pos_bound length 4 ltac:(lia)).
  destruct (Z.eqb_spec (length mod 4) 0); lia.
Qed.

(** X18. A sequence of well-formed blocks (tag [8BIM], key, payload
    length, payload, padding to a multiple of four), scanned with a
    budget equal to its size, is accepted: the scan ends normally with
    the budget at zero, the cursor just past the last block and the
    stream status untouched, whatever follows the blocks. *)
Theorem scanLoop_accepts uninit blocks (tail : QByteArray) ok :
  Forall AdditionalBlock.wellFormed blocks ->
  scanLoop uninit
    (DS.mk (concat (map AdditionalBlock.bytes blocks) ++ tail) ok)
    (Z.of_nat (length (concat (map AdditionalBlock.bytes blocks))))
  = mkScanEnd ScanDone 0 (DS.mk tail ok).
Proof.
  induction blocks as [|b blocks IH]; intros Hwf; rewrite scanLoop_step.
  - by cbn.
  - apply Forall_cons in Hwf as [(Hkey & Hlen & Hpad) Hwf].
    specialize (IH Hwf).
    pose proof (paddingTo_range (Z.of_nat (length (AdditionalBlock.payload b))))
      as Hp.
    cbn [map concat]. rewrite length_app.
    assert (Hsize : Z.of_nat (length (AdditionalBlock.bytes b))
                    = 12 + Z.of_nat (length (AdditionalBlock.payload b))
                      + paddingTo 4 (Z.of_nat (length (AdditionalBlock.payload b)))).
    { unfold AdditionalBlock.bytes. rewrite !length_app.
      cbn [AdditionalBlock.uint32 length]. lia. }
    unfold PSDAdditionalLayerInfoDataOffset.
    destruct (Z_gt_dec _ 0) as [_|]; [|lia].
    destruct (Z_lt_dec _ 8) as [|_]; [lia|].
    assert (Hbytes : forall rest : QByteArray,
              AdditionalBlock.bytes b ++ rest
              = AdditionalBlock.uint32 PSDSignature8BIM
                  ++ AdditionalBlock.uint32 (AdditionalBlock.key b)
                  ++ AdditionalBlock.uint32
                       (Z.of_nat (length (AdditionalBlock.payload b)))
                  ++ (AdditionalBlock.payload b ++ AdditionalBlock.padding b)
                  ++ rest).
    { intros rest. unfold AdditionalBlock.bytes. by rewrite <- !app_assoc. }
    rewrite <- app_assoc, Hbytes.
    change (DS.atEnd (DS.mk (AdditionalBlock.uint32 PSDSignature8BIM ++ _) ok))
      with false. cbv iota.
    unfold readPSDAdditionalLayerInfo, bind, ret.
    rewrite readUInt32_uint32 by (by vm_compute).
    change (negb (PSDSignature8BIM =? PSDSignature8BIM)) with false.
    cbn [andb]. rewrite !readUInt32_uint32 by lia.
    cbn [PSDAdditionalLayerInfo.signature PSDAdditionalLayerInfo.length].
    destruct (Z.eq_dec PSDSignature8BIM PSDSignature8BIM) as [_|]; [|done].
    unfold blockConsumed, PSDAdditionalLayerInfoSize, wrap32.
    rewrite !Z.mod_small by lia.
    unfold DS.skipRawData.
    match goal with |- context [?a <? 0] => destruct (Z.ltb_spec a 0) end; [lia|].
    unfold DS.readBlock. cbn [snd DS.rest DS.ok].
    assert (Hskip : Z.of_nat (length (AdditionalBlock.payload b))
                    + paddingTo 4 (Z.of_nat (length (AdditionalBlock.payload b)))
                    = Z.of_nat (length (AdditionalBlock.payload b
                                        ++ AdditionalBlock.padding b))).
    { rewrite length_app. lia. }
    rewrite Hskip.
    assert (Hfit : Z.of_nat (length (AdditionalBlock.payload b
                                     ++ AdditionalBlock.padding b))
                   <= Z.of_nat
                        (length ((AdditionalBlock.payload b
                                  ++ AdditionalBlock.padding b)
                                 ++ concat (map AdditionalBlock.bytes blocks)
                                 ++ tail))).
    { rewrite (length_app (_ ++ _)). lia. }
    rewrite Z.min_l by done.
    destruct (Z.leb_spec
                (Z.of_nat (length (AdditionalBlock.payload b
                                   ++ AdditionalBlock.padding b)))
                (Z.of_nat
                   (length ((AdditionalBlock.payload b
                             ++ AdditionalBlock.padding b)
                            ++ concat (map AdditionalBlock.bytes blocks)
                            ++ tail)))); [|lia].
    rewrite andb_true_r, Nat2Z.id, drop_app_length.
    rewrite <- IH. f_equal. lia.
Qed.

Lemma scanLoop_accepts_witness :
  scanLoop demoBlock
    (DS.mk
       (concat (map AdditionalBlock.bytes
                  [AdditionalBlock.mk 0x61626364 (hex [1; 2; 3]) (hex [0])])
        ++ hex [9; 9]) true)
    (Z.of_nat
       (length (concat (map AdditionalBlock.bytes
                          [AdditionalBlock.mk 0x61626364 (hex [1; 2; 3])
                             (hex [0])]))))
  = mkScanEnd ScanDone 0 (DS.mk (hex [9; 9]) true).
Proof.
  apply (scanLoop_accepts demoBlock
           [AdditionalBlock.mk 0x61626364 (hex [1; 2; 3]) (hex [0])]).
  repeat constructor; vm_compute; congruence.
Defined.
